(** * go-ipfs-p2p: the P2pClient forwarding facade

    A shallow embedding of the client of [github.com/mohaijiang/go-ipfs-p2p]
    (the file that declares [P2pClient], [Listen], [Forward], [Close],
    [Destroy], [CheckForwardHealth], [ConnectCircuit] and [parseIpfsAddr]).

    The client is a thin layer over libraries that are not part of the
    repository: go-multiaddr (the address codec), go-libp2p (the host) and
    go-ipfs/p2p (the two listener registries).  The codec and the answers of
    the network are parameters of the model ([Codec], [Net]); the registries
    follow the description the specification gives of them.  Go's run-time
    panics (a method call through a nil reference, [ma.StringCast] on a text
    that does not parse) are part of the model, because [Forward] installs a
    [recover] handler and [Destroy] clears the references the other methods
    use.  Locks and output on stdout are not modelled: the model is
    sequential. *)

From Stdlib Require Import String Ascii List ZArith Bool Arith Lia.
From Stdlib Require Import DecimalString.
Import ListNotations.

Local Open Scope string_scope.
Local Open Scope list_scope.

Notation "a +++ b" := (String.append a b) (at level 60, right associativity).

(** ** Plain data *)

(** Go's [error]: the message; [option error] is a returned error value,
    [None] being [nil]. *)
Definition error := string.

(** [peer.ID], by its text ([Pretty()]); the empty text is the empty ID. *)
Definition peerID := string.

(** [protocol.ID]. *)
Definition protocolID := string.

(** A stream handle of the host. *)
Definition stream := nat.

(** [fmt.Sprintf("%d", port)] for a Go [int]. *)
Definition itoa (n : Z) : string := NilZero.string_of_int (Z.to_int n).

(** [peer.AddrInfo] over the codec's addresses; an entry of [Addrs] may be
    the nil address ([peer.SplitAddr] returns a nil transport for an address
    that is only [/p2p/<id>]). *)
Record AddrInfo (A : Type) : Type := mkAddrInfo {
  ID : peerID;
  Addrs : list (option A)
}.
Arguments mkAddrInfo {A} _ _.
Arguments ID {A} _.
Arguments Addrs {A} _.

(** ** The pattern of [ForwardWithRandomPort]

    [regexp.MustCompile(pattern).FindStringSubmatch] for the one pattern the
    client uses, [/ip4/([0-9]+.[0-9]+.[0-9]+.[0-9]+)/tcp/([0-9]+)] with
    literal dots and slashes.  Every [[0-9]+] is followed by a character that
    is no digit or by the end of the pattern, so the greedy match of a group
    is the whole run of digits and there is nothing to backtrack to; the
    match returned is the one that starts leftmost. *)

Definition isDigit (c : ascii) : bool :=
  ((48 <=? nat_of_ascii c) && (nat_of_ascii c <=? 57))%nat.

(** The longest run of digits at the head of a text, and what follows. *)
Fixpoint digitRun (s : string) : string * string :=
  match s with
  | EmptyString => (EmptyString, EmptyString)
  | String c r =>
      if isDigit c then let (d, rest) := digitRun r in (String c d, rest)
      else (EmptyString, s)
  end.

(** [[0-9]+]: a run of at least one digit. *)
Definition digits1 (s : string) : option (string * string) :=
  let (d, rest) := digitRun s in
  match d with
  | EmptyString => None
  | _ => Some (d, rest)
  end.

(** A literal of the pattern at the head of a text. *)
Fixpoint literal (p s : string) : option string :=
  match p with
  | EmptyString => Some s
  | String a p' =>
      match s with
      | EmptyString => None
      | String b s' => if Ascii.eqb a b then literal p' s' else None
      end
  end.

(** The match of the pattern at the head of a text: the two groups. *)
Definition matchHere (s : string) : option (string * string) :=
  match literal "/ip4/" s with
  | None => None
  | Some s1 =>
  match digits1 s1 with
  | None => None
  | Some (a, s2) =>
  match literal "." s2 with
  | None => None
  | Some s3 =>
  match digits1 s3 with
  | None => None
  | Some (b, s4) =>
  match literal "." s4 with
  | None => None
  | Some s5 =>
  match digits1 s5 with
  | None => None
  | Some (c, s6) =>
  match literal "." s6 with
  | None => None
  | Some s7 =>
  match digits1 s7 with
  | None => None
  | Some (d, s8) =>
  match literal "/tcp/" s8 with
  | None => None
  | Some s9 =>
  match digits1 s9 with
  | None => None
  | Some (port, _) => Some (a +++ "." +++ b +++ "." +++ c +++ "." +++ d, port)
  end end end end end end end end end end.

(** [FindStringSubmatch]: nil when nothing matches, otherwise the matched
    text and the two groups. *)
Fixpoint FindStringSubmatch (s : string) : list string :=
  match matchHere s with
  | Some (ip, port) => ["/ip4/" +++ ip +++ "/tcp/" +++ port; ip; port]
  | None =>
      match s with
      | EmptyString => []
      | String _ r => FindStringSubmatch r
      end
  end.

(** ** The address codec (go-multiaddr and go-libp2p-core/peer)

    [multiaddr] is the type of the non-nil values of [ma.Multiaddr]; a value
    of the Go interface type is an [option multiaddr].  [convertPeers] is the
    repository's own helper turning the configured peer texts into
    [AddrInfo]s; its file is not among the sources, so it is taken as a
    parameter as well. *)
Record Codec : Type := mkCodec {
  multiaddr : Type;
  NewMultiaddr : string -> error + multiaddr;
  ma_String : multiaddr -> string;
  ma_Equal : multiaddr -> multiaddr -> bool;
  AddrInfoFromP2pAddr : multiaddr -> error + AddrInfo multiaddr;
  SplitAddr : multiaddr -> option multiaddr * peerID;
  convertPeers : list string -> list (AddrInfo multiaddr)
}.

Section Client.

Context (L : Codec).

(** A value of the interface type [ma.Multiaddr]: [None] is nil. *)
Definition Multiaddr : Type := option (multiaddr L).

Definition addrInfo : Type := AddrInfo (multiaddr L).

(** [ipfsp2p.Listener], by what its three getters return. *)
Record Listener : Type := mkListener {
  Protocol : protocolID;
  ListenAddress : Multiaddr;
  TargetAddress : Multiaddr
}.

(** What an operation asks of the world outside the client, in order. *)
Inductive Event : Type :=
| EvResolve (timeout : nat) (m : multiaddr L)
| EvNewStream (timeout : nat) (p : peerID) (proto : protocolID)
| EvStreamClose (s : stream)
| EvStreamReset (s : stream)
| EvConnect (pi : addrInfo)
| EvAddAddrs (p : peerID) (addrs : list Multiaddr)
| EvListenerClose (l : Listener)
| EvHostClose.

(** The answers of the network and of the operating system while one call
    runs.  [None] is success where the Go function returns only an error. *)
Record Net : Type := mkNet {
  madns_Resolve : multiaddr L -> error + list (multiaddr L);
  Host_NewStream : nat -> peerID -> protocolID -> error + stream;
  Host_Connect : addrInfo -> option error;
  Host_Close : option error;
  bindLocal : protocolID -> multiaddr L -> option error;
  acceptRemote : protocolID -> Multiaddr -> option error;
  rand_Intn : nat -> nat
}.

(** ** The client *)

(** [host.Host]: the handle of the running libp2p host. *)
Record host : Type := mkHost { host_ID : peerID }.

(** [ipfsp2p.P2P]: the two registries and the registry of raw streams. *)
Record ipfsp2p : Type := mkP2P {
  identity : peerID;
  ListenersLocal : list Listener;
  ListenersP2P : list Listener;
  Streams : list stream
}.

(** [P2pClient]; [Host] and [P2P] are references and may be nil.  The
    fields [DHT] and [RoutedHost] are never read by the methods below. *)
Record P2pClient : Type := mkClient {
  Host : option host;
  P2P : option ipfsp2p;
  Peers : list string
}.

(** ** Outcomes: a method returns, or panics *)

Inductive result (A : Type) : Type :=
| Ok (a : A) (c : P2pClient) (log : list Event)
| Panic (c : P2pClient) (log : list Event).
Arguments Ok {A} _ _ _.
Arguments Panic {A} _ _.

Definition M (A : Type) : Type := P2pClient -> result A.

Definition ret {A} (a : A) : M A := fun c => Ok a c [].

Definition bind {A B} (m : M A) (f : A -> M B) : M B :=
  fun c =>
    match m c with
    | Ok a c1 l1 =>
        match f a c1 with
        | Ok b c2 l2 => Ok b c2 (l1 ++ l2)
        | Panic c2 l2 => Panic c2 (l1 ++ l2)
        end
    | Panic c1 l1 => Panic c1 l1
    end.

Notation "x <- m ;; k" := (bind m (fun x => k))
  (at level 61, m at next level, right associativity).
Notation "m ;;; k" := (bind m (fun _ => k))
  (at level 61, right associativity).

Definition panic {A} : M A := fun c => Panic c [].
Definition emit (e : Event) : M unit := fun c => Ok tt c [e].
Definition get : M P2pClient := fun c => Ok c c [].
Definition put (c' : P2pClient) : M unit := fun _ => Ok tt c' [].

(** A deferred [recover()] in a function whose result is an unnamed
    [error]: a panic of the body ends the call with the zero value [nil]. *)
Definition recover (m : M (option error)) : M (option error) :=
  fun c =>
    match m c with
    | Panic c' l => Ok None c' l
    | r => r
    end.

(** Reading through a reference panics when it is nil. *)
Definition getP2P : M ipfsp2p :=
  c <- get ;; match P2P c with Some p => ret p | None => panic end.

Definition getHost : M host :=
  c <- get ;; match Host c with Some h => ret h | None => panic end.

Definition setP2P (p : ipfsp2p) : M unit :=
  c <- get ;; put (mkClient (Host c) (Some p) (Peers c)).

(** A value computed by code that may panic. *)
Definition orPanic {A} (o : option A) : M A :=
  match o with Some a => ret a | None => panic end.


(** [a, err := ma.NewMultiaddr(s)] where [err] is not acted upon: [a] is
    nil when the text does not parse. *)
Definition addrOrNil (s : string) : Multiaddr :=
  match NewMultiaddr L s with
  | inr m => Some m
  | inl _ => None
  end.

(** ** The listener registries

    [ipfsp2p.Listeners], [P2P.ForwardLocal] and [P2P.ForwardRemote] belong
    to go-ipfs and are not among the sources of the repository; what the
    client needs of them follows the specification's ListenerRegistry and
    ForwardController. *)

(** Modelled from the spec: the registry's [insert] "appends the forward";
    there is "no duplicate check at this layer". *)
Definition Listeners_insert (l : Listener) (ls : list Listener) : list Listener :=
  ls ++ [l].

(** Modelled from the spec: the scan of the registry's [closeMatching],
    which "closes and removes all matching forwards": the forwards kept and
    the forwards closed, both in insertion order.  The predicates the client
    passes call methods of the addresses and can panic ([None]); a panic of
    the predicate ends the scan. *)
Fixpoint Listeners_scan (matchFunc : Listener -> option bool) (ls : list Listener)
  : option (list Listener * list Listener) :=
  match ls with
  | [] => Some ([], [])
  | l :: rest =>
      match matchFunc l with
      | None => None
      | Some b =>
          match Listeners_scan matchFunc rest with
          | None => None
          | Some (kept, closed) =>
              Some (if b then (kept, l :: closed) else (l :: kept, closed))
          end
      end
  end.

(** Which of the two registries of [c.P2P] a call works on. *)
Inductive direction : Type := LocalBind | OverlayBind.

Definition registry (d : direction) (p : ipfsp2p) : list Listener :=
  match d with
  | LocalBind => ListenersLocal p
  | OverlayBind => ListenersP2P p
  end.

Definition setRegistry (d : direction) (ls : list Listener) (p : ipfsp2p) : ipfsp2p :=
  match d with
  | LocalBind => mkP2P (identity p) ls (ListenersP2P p) (Streams p)
  | OverlayBind => mkP2P (identity p) (ListenersLocal p) ls (Streams p)
  end.

Definition emitAll (es : list Event) : M unit := fun c => Ok tt c es.

(** Modelled from the spec: [c.P2P.ListenersLocal.Close(match)] and
    [c.P2P.ListenersP2P.Close(match)], the registry's [closeMatching], which
    "closes and removes all matching forwards (releasing the underlying
    socket/stream), returns count closed".  A panic of the predicate leaves
    the collection as it stood. *)
Definition Listeners_Close (d : direction) (matchFunc : Listener -> option bool) : M nat :=
  p <- getP2P ;;
  r <- orPanic (Listeners_scan matchFunc (registry d p)) ;;
  setP2P (setRegistry d (fst r) p) ;;;
  emitAll (map EvListenerClose (snd r)) ;;;
  ret (length (snd r)).

Variable N : Net.

(** Modelled from the spec: [P2P.ForwardLocal] belongs to go-ipfs.  The
    specification has it open a local TCP listener on the bind address and
    register the forward (protocol, bind address, [/p2p/<peer>]) in the
    local-bind registry; a bind failure is returned and registers nothing. *)
Definition P2P_ForwardLocal (peer : peerID) (proto : protocolID) (bindAddr : multiaddr L)
  : M (option error) :=
  p <- getP2P ;;
  match bindLocal N proto bindAddr with
  | Some e => ret (Some e)
  | None =>
      let target := addrOrNil ("/p2p/" +++ peer) in
      setP2P (setRegistry LocalBind
                (Listeners_insert (mkListener proto (Some bindAddr) target) (ListenersLocal p)) p) ;;;
      ret None
  end.

(** Modelled from the spec: [P2P.ForwardRemote] belongs to go-ipfs.  The
    specification has it accept incoming streams of the protocol and pipe
    them to the target address, registering the forward in the overlay-bind
    registry under the overlay marker [/p2p/<own identity>]; a failure to
    register the protocol handler is returned and registers nothing.  The
    target is stored as it is given. *)
Definition P2P_ForwardRemote (proto : protocolID) (addr : Multiaddr) (reportRemote : bool)
  : M (option error) :=
  p <- getP2P ;;
  match acceptRemote N proto addr with
  | Some e => ret (Some e)
  | None =>
      let listen := addrOrNil ("/p2p/" +++ identity p) in
      setP2P (setRegistry OverlayBind
                (Listeners_insert (mkListener proto listen addr) (ListenersP2P p)) p) ;;;
      ret None
  end.

(** Modelled from the spec: [randomSubsetOfPeers] is the repository's own
    helper and is not among the sources.  The specification has the fallback
    select one peer at random from the configured set, and fail when the set
    is empty: the subset is the first [max] peers from a random position on,
    so it is empty exactly when the set or [max] is. *)
Definition randomSubsetOfPeers (peers : list addrInfo) (max : nat) : list addrInfo :=
  let k := rand_Intn N (length peers) mod length peers in
  firstn max (skipn k peers ++ firstn k peers).

(** ** parseIpfsAddr *)

(** The resolution timeout, in seconds ([resolveTimeout]). *)
Definition resolveTimeout : nat := 10.

(** The loop over the resolved addresses, [info] being the record built so
    far.  The result is the error of the [default] case, or the record. *)
Fixpoint mergeResolved (m : multiaddr L) (addrs : list (multiaddr L)) (info : addrInfo)
  : error + addrInfo :=
  match addrs with
  | [] => inr info
  | addr :: rest =>
      let (taddr, id) := SplitAddr L addr in
      if (id =? "")%string then mergeResolved m rest info
      else if (ID info =? "")%string then
        mergeResolved m rest (mkAddrInfo id (Addrs info ++ [taddr]))
      else if (ID info =? id)%string then
        mergeResolved m rest (mkAddrInfo (ID info) (Addrs info ++ [taddr]))
      else
        inl ("ambiguous multiaddr " +++ ma_String L m +++ " could refer to "
               +++ ID info +++ " or " +++ id)
  end.

(** [parseIpfsAddr(addr)]: the pair ([*peer.AddrInfo], [error]) as a sum,
    with the calls it makes to the resolver. *)
Definition parseIpfsAddr (addr : string) : (error + addrInfo) * list Event :=
  match NewMultiaddr L addr with
  | inl e => (inl e, [])
  | inr m =>
      match AddrInfoFromP2pAddr L m with
      | inr pi => (inr pi, [])
      | inl _ =>
          match madns_Resolve N m with
          | inl e => (inl e, [EvResolve resolveTimeout m])
          | inr addrs =>
              if (length addrs =? 0)%nat then
                (inl ("fail to resolve the multiaddr:" +++ ma_String L m),
                 [EvResolve resolveTimeout m])
              else
                (mergeResolved m addrs (mkAddrInfo "" []),
                 [EvResolve resolveTimeout m])
          end
      end
  end.

Definition call {A} (r : A * list Event) : M A := fun c => Ok (fst r) c (snd r).


(** ** The methods of the client *)

(** [P2PListenerInfoOutput]. *)
Record P2PListenerInfoOutput : Type := mkInfo {
  out_Protocol : string;
  out_ListenAddress : string;
  out_TargetAddress : string
}.

(** [addr.String()] through the interface: a nil address panics. *)
Definition textOf (a : Multiaddr) : option string :=
  match a with Some m => Some (ma_String L m) | None => None end.

Definition infoOf (l : Listener) : option P2PListenerInfoOutput :=
  match textOf (ListenAddress l), textOf (TargetAddress l) with
  | Some la, Some ta => Some (mkInfo (Protocol l) la ta)
  | _, _ => None
  end.

Fixpoint infosOf (ls : list Listener) : option (list P2PListenerInfoOutput) :=
  match ls with
  | [] => Some []
  | l :: rest =>
      match infoOf l with
      | None => None
      | Some i =>
          match infosOf rest with
          | None => None
          | Some is_ => Some (i :: is_)
          end
      end
  end.

(** [List()]: the local-bind registry, then the overlay-bind one. *)
Definition List : M (list P2PListenerInfoOutput) :=
  p <- getP2P ;;
  locals <- orPanic (infosOf (ListenersLocal p)) ;;
  p' <- getP2P ;;
  remotes <- orPanic (infosOf (ListenersP2P p')) ;;
  ret (locals ++ remotes).

(** [Listen(proto, targetOpt)].  The error of [ma.NewMultiaddr] is printed
    and the call goes on with the nil target. *)
Definition Listen (proto targetOpt : string) : M (option error) :=
  let target := addrOrNil targetOpt in
  P2P_ForwardRemote proto target false.

(** The health-check timeout, in seconds. *)
Definition healthTimeout : nat := 30.

(** [CheckForwardHealth(proto, peerId)]. *)
Definition CheckForwardHealth (proto peerId : string) : M (option error) :=
  let targetOpt := "/p2p/" +++ peerId in
  targets <- call (parseIpfsAddr targetOpt) ;;
  match targets with
  | inl err => ret (Some err)
  | inr targets =>
      getHost ;;;
      emit (EvNewStream healthTimeout (ID targets) proto) ;;;
      match Host_NewStream N healthTimeout (ID targets) proto with
      | inl err => ret (Some err)
      | inr s => emit (EvStreamClose s) ;;; ret None
      end
  end.

(** [filterListener(listeners, matchFunc)]; [None] when [matchFunc] panics. *)
Fixpoint filterListener (listeners : list Listener) (matchFunc : Listener -> option bool)
  : option (list Listener) :=
  match listeners with
  | [] => Some []
  | l :: rest =>
      match matchFunc l with
      | None => None
      | Some b =>
          match filterListener rest matchFunc with
          | None => None
          | Some todo => Some (if b then l :: todo else todo)
          end
      end
  end.

(** [ma.StringCast]: the address of a text, a panic when it does not parse. *)
Definition StringCast (s : string) : M (multiaddr L) :=
  match NewMultiaddr L s with
  | inr m => ret m
  | inl _ => panic
  end.

(** [ConnectCircuit(circuitPeer, targetPeer)]. *)
Definition ConnectCircuit (circuitPeer targetPeer : string) : M (option error) :=
  maddr <- StringCast ("/p2p/" +++ circuitPeer +++ "/p2p-circuit/p2p/" +++ targetPeer) ;;
  match AddrInfoFromP2pAddr L maddr with
  | inl err => ret (Some err)
  | inr pi =>
      getHost ;;;
      emit (EvConnect pi) ;;;
      ret (Host_Connect N pi)
  end.

(** [forwardLocal(ctx, p, ps, proto, bindAddr, addr)]; [addr] is a pointer
    and is read without a nil check. *)
Definition forwardLocal (proto : protocolID) (bindAddr : multiaddr L) (addr : option addrInfo)
  : M (option error) :=
  a <- orPanic addr ;;
  emit (EvAddAddrs (ID a) (Addrs a)) ;;;
  P2P_ForwardLocal (ID a) proto bindAddr.

(** The predicate [Forward] filters the local-bind registry with; [&&]
    evaluates its right operand only when the left one holds. *)
Definition sameForward (protoId : protocolID) (listen : multiaddr L) (target : Multiaddr)
    (listener : Listener) : option bool :=
  if (Protocol listener =? protoId)%string then
    match textOf (ListenAddress listener) with
    | None => None
    | Some la =>
        if (la =? ma_String L listen)%string then
          match textOf (TargetAddress listener), textOf target with
          | Some ta, Some t => Some (ta =? t)%string
          | _, _ => None
          end
        else Some false
    end
  else Some false.

(** [Forward], from the computation of [listenOpt] to its end. *)
Definition Forward_register (protoOpt : string) (port : Z) (peerId : string)
  : M (option error) :=
  let listenOpt := "/ip4/127.0.0.1/tcp/" +++ itoa port in
  let targetOpt := "/p2p/" +++ peerId in
  match NewMultiaddr L listenOpt with
  | inl err => ret (Some err)
  | inr listen =>
      parsed <- call (parseIpfsAddr targetOpt) ;;
      let targetAddrInfo := match parsed with inr pi => Some pi | inl _ => None end in
      p <- getP2P ;;
      let target := addrOrNil targetOpt in
      listeners <- orPanic (filterListener (ListenersLocal p)
                              (sameForward protoOpt listen target)) ;;
      if (0 <? length listeners)%nat then ret None
      else
        getHost ;;;
        forwardLocal protoOpt listen targetAddrInfo
  end.

(** [Forward], the body of the branch taken when the health check failed,
    up to the call of [ConnectCircuit]: [Some e] is [return e]. *)
Definition Forward_fallback (peerId : string) : M (option error) :=
  c <- get ;;
  let bootstrapPeers := randomSubsetOfPeers (convertPeers L (Peers c)) 1 in
  match bootstrapPeers with
  | [] => ret (Some "not enough bootstrap peers")
  | b :: _ => ConnectCircuit (ID b) peerId
  end.

(** [Forward(protoOpt, port, peerId)].  The [recover] handler is deferred
    inside the branch of the failed health check and guards the rest of the
    call from there on. *)
Definition Forward (protoOpt : string) (port : Z) (peerId : string) : M (option error) :=
  if (peerId =? "")%string then ret (Some "peer id cannot be empty")
  else
    health <- CheckForwardHealth protoOpt peerId ;;
    match health with
    | None => Forward_register protoOpt port peerId
    | Some _ =>
        recover (err <- Forward_fallback peerId ;;
                 match err with
                 | Some e => ret (Some e)
                 | None => Forward_register protoOpt port peerId
                 end)
    end.

(** The predicate of [Close]: [targetAddress.Equal(listener.TargetAddress())];
    [Equal] reads its argument, so a nil target address panics. *)
Definition sameTarget (targetAddress : multiaddr L) (listener : Listener) : option bool :=
  match TargetAddress listener with
  | Some t => Some (ma_Equal L targetAddress t)
  | None => None
  end.

(** [Close(target)]: the count and the error. *)
Definition Close (target : string) : M (nat * option error) :=
  match NewMultiaddr L target with
  | inl err => ret (0, Some err)
  | inr targetAddress =>
      done <- Listeners_Close LocalBind (sameTarget targetAddress) ;;
      done' <- Listeners_Close OverlayBind (sameTarget targetAddress) ;;
      ret (done + done', None)
  end.

(** Modelled from the spec: [c.P2P.Streams.Close(stream)] for every stream
    of the go-ipfs stream registry; [destroy] "closes every open
    overlay-originated raw stream". *)
Definition closeStreams : M unit :=
  p <- getP2P ;;
  emitAll (map EvStreamReset (Streams p)) ;;;
  setP2P (mkP2P (identity p) (ListenersLocal p) (ListenersP2P p) []).

(** [Destroy()]. *)
Definition Destroy : M (option error) :=
  closeStreams ;;;
  Listeners_Close OverlayBind (fun _ => Some true) ;;;
  Listeners_Close LocalBind (fun _ => Some true) ;;;
  getHost ;;;
  emit EvHostClose ;;;
  c <- get ;;
  put (mkClient None None (Peers c)) ;;;
  ret (Host_Close N).

(** [ListenReply]. *)
Record ListenReply : Type := mkReply {
  reply_Protocol : string;
  reply_ListenAddress : string;
  reply_TargetAddress : string
}.

Definition replyOf (l : Listener) : option ListenReply :=
  match textOf (ListenAddress l), textOf (TargetAddress l) with
  | Some la, Some ta => Some (mkReply (Protocol l) la ta)
  | _, _ => None
  end.

Fixpoint repliesOf (ls : list Listener) : option (list ListenReply) :=
  match ls with
  | [] => Some []
  | l :: rest =>
      match replyOf l with
      | None => None
      | Some i =>
          match repliesOf rest with
          | None => None
          | Some is_ => Some (i :: is_)
          end
      end
  end.

(** [ListListen()]: the replies and the error, which is always nil. *)
Definition ListListen : M (list ListenReply * option error) :=
  p <- getP2P ;;
  locals <- orPanic (repliesOf (ListenersLocal p)) ;;
  p' <- getP2P ;;
  remotes <- orPanic (repliesOf (ListenersP2P p')) ;;
  ret (locals ++ remotes, None).

(** [rand.Intn(9999) + 30000]. *)
Definition randomPort : Z :=
  (Z.of_nat (rand_Intn N (Z.to_nat 9999)) mod 9999 + 30000)%Z.

(** [ForwardWithRandomPort(peerId)]: the address, the port and the error.
    [lo.Find] returns the first reply that satisfies the predicate (the
    replies are never nil pointers); the second test of [err] in the source
    reads the value the first one found nil. *)
Definition ForwardWithRandomPort (peerId : string) : M (string * string * option error) :=
  r <- ListListen ;;
  match snd r with
  | Some _ => ret (EmptyString, EmptyString, None)
  | None =>
      let matches :=
        match find (fun item => (reply_TargetAddress item =? "/p2p/" +++ peerId)%string)
                (fst r) with
        | Some t => FindStringSubmatch (reply_ListenAddress t)
        | None => []
        end in
      if (3 <=? length matches)%nat then
        ret (nth 1 matches EmptyString, nth 2 matches EmptyString, None)
      else
        let listenIp := "127.0.0.1" in
        let listenPort := randomPort in
        let targetOpt := "/p2p/" +++ peerId in
        let proto := "/x/ssh" in
        err <- Forward proto listenPort targetOpt ;;
        match err with
        | Some _ => ret (EmptyString, EmptyString, None)
        | None => ret (listenIp, itoa listenPort, None)
        end
  end.

End Client.

Arguments Ok {L A} _ _ _.
Arguments Panic {L A} _ _.
Arguments mkListener {L} _ _ _.
Arguments Protocol {L} _.
Arguments ListenAddress {L} _.
Arguments TargetAddress {L} _.
Arguments mkP2P {L} _ _ _ _.
Arguments identity {L} _.
Arguments ListenersLocal {L} _.
Arguments ListenersP2P {L} _.
Arguments Streams {L} _.
Arguments mkClient {L} _ _ _.
Arguments Host {L} _.
Arguments P2P {L} _.
Arguments Peers {L} _.
Arguments mkNet {L} _ _ _ _ _ _ _.
Arguments madns_Resolve {L} _ _.
Arguments Host_NewStream {L} _ _ _ _.
Arguments Host_Connect {L} _ _.
Arguments Host_Close {L} _.
Arguments bindLocal {L} _ _ _.
Arguments acceptRemote {L} _ _ _.
Arguments rand_Intn {L} _ _.
Arguments EvResolve {L} _ _.
Arguments EvNewStream {L} _ _ _.
Arguments EvStreamClose {L} _.
Arguments EvStreamReset {L} _.
Arguments EvConnect {L} _.
Arguments EvAddAddrs {L} _ _.
Arguments EvListenerClose {L} _.
Arguments EvHostClose {L}.
Arguments addrOrNil {L} _.
Arguments registry {L} _ _.
Arguments Listeners_scan {L} _ _.
Arguments Listeners_Close {L} _ _ _.
Arguments randomSubsetOfPeers {L} _ _ _.
Arguments mergeResolved {L} _ _ _.
Arguments parseIpfsAddr {L} _ _.
Arguments textOf {L} _.
Arguments infosOf {L} _.
Arguments List {L} _.
Arguments Listen {L} _ _ _ _.
Arguments CheckForwardHealth {L} _ _ _ _.
Arguments filterListener {L} _ _.
Arguments ConnectCircuit {L} _ _ _ _.
Arguments sameForward {L} _ _ _ _.
Arguments Forward_register {L} _ _ _ _ _.
Arguments Forward_fallback {L} _ _ _.
Arguments Forward {L} _ _ _ _ _.
Arguments sameTarget {L} _ _.
Arguments Close {L} _ _.
Arguments Destroy {L} _ _.
Arguments repliesOf {L} _.
Arguments ListListen {L} _.
Arguments randomPort {L} _.
Arguments ForwardWithRandomPort {L} _ _ _.

(** ** Observations on a client *)

(** The forwards of one registry; a destroyed client has none. *)
Definition forwards {L} (d : direction) (c : P2pClient L) : list (Listener L) :=
  match P2P c with
  | Some p => registry d p
  | None => []
  end.

(** The forwards of the local-bind registry with the triple [Forward] looks
    for: protocol [p], the text of [/ip4/127.0.0.1/tcp/<port>] and the text
    of [/p2p/<peerId>]. *)
Definition hasTriple {L} (p listenText targetText : string) (l : Listener L) : bool :=
  ((Protocol l =? p)%string
   && match textOf (ListenAddress l) with Some la => (la =? listenText)%string | None => false end
   && match textOf (TargetAddress l) with Some ta => (ta =? targetText)%string | None => false end)%bool.

Definition countTriple {L} (p listenText targetText : string) (c : P2pClient L) : nat :=
  length (filter (hasTriple p listenText targetText) (forwards LocalBind c)).

(** The client and the events an outcome carries. *)
Definition clientOf {L A} (r : result L A) : P2pClient L :=
  match r with Ok _ c _ => c | Panic c _ => c end.

Definition logOf {L A} (r : result L A) : list (Event L) :=
  match r with Ok _ _ l => l | Panic _ l => l end.

(** The same outcome, met on another client. *)
Definition relocate {L A} (c : P2pClient L) (r : result L A) : result L A :=
  match r with Ok a _ l => Ok a c l | Panic _ l => Panic c l end.

(** The forwards whose target address has the given text. *)
Definition targetIs {L} (text : string) (l : Listener L) : bool :=
  match textOf (TargetAddress l) with
  | Some t => (t =? text)%string
  | None => false
  end.

(** The closings of forwards among the events of a call. *)
Definition isListenerClose {L} (e : Event L) : bool :=
  match e with EvListenerClose _ => true | _ => false end.

(** A text made of decimal digits only. *)
Fixpoint allDigits (s : string) : bool :=
  match s with
  | EmptyString => true
  | String c r => (isDigit c && allDigits r)%bool
  end.

(** The replies [ForwardWithRandomPort] looks through, and what the pattern
    finds in the listen address of the first one with the target text. *)
Definition found (peerId : string) (replies : list ListenReply) : list string :=
  match find (fun item => (reply_TargetAddress item =? "/p2p/" +++ peerId)%string)
          replies with
  | Some t => FindStringSubmatch (reply_ListenAddress t)
  | None => []
  end.

(** The connection attempts among the events of a call. *)
Definition isConnect {L} (e : Event L) : bool :=
  match e with EvConnect _ => true | _ => false end.

(** The identities and the transport addresses that [peer.SplitAddr] finds
    in the resolved addresses that carry an identity. *)
Definition carriesID {L : Codec} (a : multiaddr L) : bool :=
  negb (snd (SplitAddr L a) =? "")%string.

Definition identities {L : Codec} (addrs : list (multiaddr L)) : list peerID :=
  map (fun a => snd (SplitAddr L a)) (filter carriesID addrs).

Definition transports {L : Codec} (addrs : list (multiaddr L)) : list (Multiaddr L) :=
  map (fun a => fst (SplitAddr L a)) (filter carriesID addrs).

(** The identity that differs from [x] and comes first. *)
Definition firstOther (x : peerID) (ids : list peerID) : option peerID :=
  find (fun i => negb (i =? x)%string) ids.

(** The message of the ambiguity error. *)
Definition ambiguous {L : Codec} (m : multiaddr L) (x y : peerID) : error :=
  "ambiguous multiaddr " +++ ma_String L m +++ " could refer to " +++ x +++ " or " +++ y.

(** ** A reference codec and reference networks

    An instance of the parameters, used to run the model on concrete calls.
    Addresses are read as go-multiaddr reads the protocols the client meets:
    a text is a sequence of [/name] or [/name/value] components, trailing
    slashes are dropped, [ipfs] is the old name of [p2p], a TCP port is a
    number up to 65535, and a peer identity is recognised by the prefix of
    its base58 text. *)
Module Ref.

Definition maddr : Type := list (string * string).

Fixpoint trimRight (s : string) : string :=
  match s with
  | EmptyString => EmptyString
  | String c r =>
      let r' := trimRight r in
      if (Ascii.eqb c "/" && (r' =? "")%string)%bool then EmptyString else String c r'
  end.

Fixpoint splitSlash (s : string) : list string :=
  match s with
  | EmptyString => [EmptyString]
  | String c r =>
      if Ascii.eqb c "/" then EmptyString :: splitSlash r
      else match splitSlash r with
           | [] => [String c EmptyString]
           | w :: ws => String c w :: ws
           end
  end.

Definition portOK (v : string) : bool :=
  (negb (v =? "")%string
   && match NilEmpty.uint_of_string v with
      | Some u => (N.of_uint u <=? 65535)%N
      | None => false
      end)%bool.

Definition peerOK (v : string) : bool :=
  (String.prefix "Qm" v || String.prefix "12D3Koo" v)%bool.

(** The protocols: canonical name, and whether a value follows. *)
Definition protoOf (name : string) : option (string * bool) :=
  if (name =? "ip4")%string then Some ("ip4", true)
  else if (name =? "tcp")%string then Some ("tcp", true)
  else if (name =? "dnsaddr")%string then Some ("dnsaddr", true)
  else if (name =? "p2p")%string then Some ("p2p", true)
  else if (name =? "ipfs")%string then Some ("p2p", true)
  else if (name =? "p2p-circuit")%string then Some ("p2p-circuit", false)
  else None.

Definition validValue (proto v : string) : bool :=
  if (proto =? "tcp")%string then portOK v
  else if (proto =? "p2p")%string then peerOK v
  else negb (v =? "")%string.

Fixpoint parseComps (toks : list string) : option maddr :=
  match toks with
  | [] => Some []
  | name :: rest =>
      match protoOf name with
      | None => None
      | Some (p, false) => option_map (cons (p, EmptyString)) (parseComps rest)
      | Some (p, true) =>
          match rest with
          | [] => None
          | v :: rest' =>
              if validValue p v then option_map (cons (p, v)) (parseComps rest')
              else None
          end
      end
  end.

Definition parse (s : string) : error + maddr :=
  match splitSlash (trimRight s) with
  | EmptyString :: (_ :: _) as toks =>
      match parseComps toks with
      | Some m => inr m
      | None => inl ("failed to parse multiaddr: " +++ s)
      end
  | _ => inl ("failed to parse multiaddr: " +++ s)
  end.

Fixpoint text (m : maddr) : string :=
  match m with
  | [] => EmptyString
  | (p, v) :: rest =>
      "/" +++ p +++ (if (v =? "")%string then EmptyString else "/" +++ v) +++ text rest
  end.

Fixpoint equal (a b : maddr) : bool :=
  match a, b with
  | [], [] => true
  | (p, v) :: a', (q, w) :: b' => ((p =? q)%string && (v =? w)%string && equal a' b')%bool
  | _, _ => false
  end.

Definition split (m : maddr) : option maddr * peerID :=
  match rev m with
  | (p, id) :: front =>
      if (p =? "p2p")%string
      then (match front with [] => None | _ => Some (rev front) end, id)
      else (Some m, EmptyString)
  | [] => (Some m, EmptyString)
  end.

Definition addrInfoOf (m : maddr) : error + AddrInfo maddr :=
  let (transport, id) := split m in
  if (id =? "")%string then inl "invalid p2p multiaddr"
  else inr (mkAddrInfo id (match transport with Some _ => [transport] | None => [] end)).

Definition peersOf (peers : list string) : list (AddrInfo maddr) :=
  flat_map (fun s => match parse s with
                     | inr m => match addrInfoOf m with inr pi => [pi] | inl _ => [] end
                     | inl _ => []
                     end) peers.

Definition codec : Codec := mkCodec maddr parse text equal addrInfoOf split peersOf.

(** A network: whether the target answers a new stream, whether a relayed
    connection succeeds, and what the resolver returns for an address that
    names no peer. *)
Definition net (reachable relayed : bool) (dns : maddr -> error + list maddr) : Net codec :=
  mkNet (L := codec) dns
    (fun _ _ _ => if reachable then inr 7 else inl "failed to dial")
    (fun _ => if relayed then None else Some "failed to dial")
    None
    (fun _ _ => None)
    (fun _ _ => None)
    (fun _ => 0).

(** The resolver on an address with nothing to resolve: the address itself. *)
Definition noDNS (m : maddr) : error + list maddr := inr [m].

(** A resolver that knows three names: one whose records are a bare
    transport address and an address of [QmTarget], one whose records name
    two peers, and one without records. *)
Definition dns (m : maddr) : error + list maddr :=
  if equal m [("dnsaddr", "mixed.example")] then
    inr [[("ip4", "10.0.0.1"); ("tcp", "4001")];
         [("ip4", "10.0.0.2"); ("tcp", "4001"); ("p2p", "QmTarget")]]
  else if equal m [("dnsaddr", "two.example")] then
    inr [[("ip4", "10.0.0.2"); ("tcp", "4001"); ("p2p", "QmTarget")];
         [("ip4", "10.0.0.3"); ("tcp", "4001"); ("p2p", "QmOther")]]
  else if equal m [("dnsaddr", "none.example")] then inr []
  else inr [m].

Definition self : peerID := "QmSelf".
Definition relay : string := "/ip4/34.139.126.73/tcp/4001/p2p/12D3KooWRelay".

(** A client as [NewP2pClient] returns it, with the given bootstrap peers. *)
Definition fresh (peers : list string) : P2pClient codec :=
  mkClient (Some (mkHost self)) (Some (mkP2P self [] [] [])) peers.

(** The spec's scenario: on a fresh client, [Forward("/x/ssh", 8000,
    "QmTarget")] with a reachable peer; and a client that also listens. *)
Definition up : Net codec := net true true noDNS.

Definition once : P2pClient codec :=
  clientOf (Forward up "/x/ssh" 8000 "QmTarget" (fresh [])).

Definition both : P2pClient codec :=
  clientOf (Listen up "/x/ssh" "/ip4/127.0.0.1/tcp/80" once).

End Ref.

(** What [Forward_register] can do to the client: nothing, or append one
    forward to the local-bind registry after a filter that found none. *)
Definition registered {L : Codec} (N : Net L) (protoOpt : string) (port : Z) (peerId : string)
    (c c' : P2pClient L) : Prop :=
  exists pr listen target tgt,
    NewMultiaddr L ("/ip4/127.0.0.1/tcp/" +++ itoa port) = inr listen /\
    P2P c = Some pr /\
    filterListener (ListenersLocal pr)
      (sameForward protoOpt listen (addrOrNil ("/p2p/" +++ peerId))) = Some [] /\
    fst (parseIpfsAddr N ("/p2p/" +++ peerId)) = inr target /\
    tgt = addrOrNil ("/p2p/" +++ ID target) /\
    c' = mkClient (Host c)
           (Some (mkP2P (identity pr)
                    (ListenersLocal pr ++ [mkListener protoOpt (Some listen) tgt])
                    (ListenersP2P pr) (Streams pr)))
           (Peers c).

(** * Properties *)

(** Unfolds the plumbing of the monad. *)
#[local] Arguments String.append : simpl never.

Ltac run :=
  unfold getP2P, getHost, setP2P, orPanic, call, emitAll, emit, recover, panic,
    ret, get, put, bind; simpl.

(** ** The resolver *)

Section Resolver.

Context {L : Codec} (N : Net L).

Lemma carriesID_false (a : multiaddr L) :
  carriesID a = false <-> snd (SplitAddr L a) = "".
Proof.
  unfold carriesID. rewrite negb_false_iff. apply String.eqb_eq.
Qed.

Lemma identities_cons (a : multiaddr L) (rest : list (multiaddr L)) :
  identities (a :: rest) =
  if (snd (SplitAddr L a) =? "")%string then identities rest
  else snd (SplitAddr L a) :: identities rest.
Proof.
  unfold identities. simpl. unfold carriesID at 1.
  destruct (snd (SplitAddr L a) =? "")%string; reflexivity.
Qed.

Lemma transports_cons (a : multiaddr L) (rest : list (multiaddr L)) :
  transports (a :: rest) =
  if (snd (SplitAddr L a) =? "")%string then transports rest
  else fst (SplitAddr L a) :: transports rest.
Proof.
  unfold transports. simpl. unfold carriesID at 1.
  destruct (snd (SplitAddr L a) =? "")%string; reflexivity.
Qed.

(** The loop once an identity [x] is known. *)
Lemma mergeResolved_known (m : multiaddr L) (addrs : list (multiaddr L)) :
  forall (x : peerID) (acc : list (Multiaddr L)),
    x <> "" ->
    mergeResolved m addrs (mkAddrInfo x acc) =
    match firstOther x (identities addrs) with
    | Some y => inl (ambiguous m x y)
    | None => inr (mkAddrInfo x (acc ++ transports addrs))
    end.
Proof.
  induction addrs as [|a rest IH]; intros x acc Hx.
  - simpl. now rewrite app_nil_r.
  - rewrite identities_cons, transports_cons. cbn [mergeResolved].
    destruct (SplitAddr L a) as [taddr id]. cbn [fst snd ID Addrs].
    destruct (id =? "")%string eqn:Hid.
    + now apply IH.
    + destruct (x =? "")%string eqn:Hx0.
      { apply String.eqb_eq in Hx0. contradiction. }
      unfold firstOther. cbn [find]. fold (firstOther x (identities rest)).
      rewrite (String.eqb_sym id x).
      destruct (x =? id)%string eqn:Hxi; cbn [negb].
      * rewrite IH by assumption. rewrite <- app_assoc. reflexivity.
      * reflexivity.
Qed.

(** The loop before any identity is known. *)
Lemma mergeResolved_unknown (m : multiaddr L) (addrs : list (multiaddr L)) :
  forall acc : list (Multiaddr L),
    mergeResolved m addrs (mkAddrInfo "" acc) =
    match identities addrs with
    | [] => inr (mkAddrInfo "" acc)
    | x :: others =>
        match firstOther x others with
        | Some y => inl (ambiguous m x y)
        | None => inr (mkAddrInfo x (acc ++ transports addrs))
        end
    end.
Proof.
  induction addrs as [|a rest IH]; intros acc.
  - reflexivity.
  - rewrite identities_cons, transports_cons. cbn [mergeResolved].
    destruct (SplitAddr L a) as [taddr id]. cbn [fst snd ID Addrs].
    destruct (id =? "")%string eqn:Hid.
    + apply IH.
    + cbn [String.eqb]. rewrite mergeResolved_known.
      * rewrite <- app_assoc. reflexivity.
      * intro E. subst id. discriminate.
Qed.

Lemma firstOther_none (x : peerID) (ids : list peerID) :
  firstOther x ids = None <-> forall i, In i ids -> i = x.
Proof.
  unfold firstOther. split.
  - intros H i Hi.
    pose proof (find_none _ _ H i Hi) as Hn. simpl in Hn.
    apply negb_false_iff in Hn. now apply String.eqb_eq.
  - intros H.
    destruct (find (fun i => negb (i =? x)%string) ids) as [y|] eqn:F; [|reflexivity].
    apply find_some in F. destruct F as [Hin Hy].
    apply negb_true_iff in Hy. apply String.eqb_neq in Hy.
    specialize (H y Hin). contradiction.
Qed.

Lemma firstOther_some (x y : peerID) (ids : list peerID) :
  firstOther x ids = Some y -> In y ids /\ y <> x.
Proof.
  unfold firstOther. intros F. apply find_some in F. destruct F as [Hin Hy].
  split; [assumption|].
  apply negb_true_iff in Hy. now apply String.eqb_neq in Hy.
Qed.

Lemma identities_nonempty (addrs : list (multiaddr L)) (i : peerID) :
  In i (identities addrs) -> i <> "".
Proof.
  unfold identities. rewrite in_map_iff. intros [a [E Ha]].
  apply filter_In in Ha. destruct Ha as [_ Hc]. unfold carriesID in Hc.
  apply negb_true_iff in Hc. apply String.eqb_neq in Hc. congruence.
Qed.

(** Addresses without an identity leave the record as it is. *)
Lemma mergeResolved_skips (m : multiaddr L) (addrs : list (multiaddr L)) (info : addrInfo L) :
  Forall (fun a => snd (SplitAddr L a) = "") addrs ->
  mergeResolved m addrs info = inr info.
Proof.
  induction 1 as [|b more Hb Hmore IH].
  - reflexivity.
  - cbn [mergeResolved]. destruct (SplitAddr L b) as [taddr id].
    cbn [snd] in Hb. subst id. cbn [String.eqb]. exact IH.
Qed.

(** C6 (amended).  When the text parses to an address that itself ends in a
    peer identity, [parseIpfsAddr] returns the decoded record and asks
    nothing of the resolver.  Otherwise it resolves the address once, and:
    with no result it fails with the resolution error; when the results
    carry two distinct identities it fails with the ambiguity error, which
    names two distinct identities found among them; and when all identities
    found agree it succeeds with that identity (the empty one if there is
    none) and with the transport addresses of exactly those results that
    carry an identity, in order. *)
Theorem parseIpfsAddr_resolution (addr : string) (m : multiaddr L) :
  NewMultiaddr L addr = inr m ->
  (forall pi, AddrInfoFromP2pAddr L m = inr pi ->
     parseIpfsAddr N addr = (inr pi, []))
  /\
  (forall e addrs,
     AddrInfoFromP2pAddr L m = inl e ->
     madns_Resolve N m = inr addrs ->
     snd (parseIpfsAddr N addr) = [EvResolve resolveTimeout m]
     /\ (addrs = [] ->
         fst (parseIpfsAddr N addr) =
         inl ("fail to resolve the multiaddr:" +++ ma_String L m))
     /\ ((exists x y, In x (identities addrs) /\ In y (identities addrs) /\ x <> y) ->
         exists x y, In x (identities addrs) /\ In y (identities addrs) /\ x <> y /\
                     fst (parseIpfsAddr N addr) = inl (ambiguous m x y))
     /\ (addrs <> [] ->
         (forall x y, In x (identities addrs) -> In y (identities addrs) -> x = y) ->
         fst (parseIpfsAddr N addr) =
         inr (mkAddrInfo (hd "" (identities addrs)) (transports addrs)))).
Proof.
  intros Hm. split.
  - intros pi Hpi. unfold parseIpfsAddr. now rewrite Hm, Hpi.
  - intros e addrs He Hr. unfold parseIpfsAddr. rewrite Hm, He, Hr.
    repeat split.
    + destruct (length addrs =? 0)%nat; reflexivity.
    + intros ->. reflexivity.
    + intros [x [y [Hx [Hy Hxy]]]].
      destruct addrs as [|a rest]; [contradiction|].
      cbn [length Nat.eqb fst]. rewrite mergeResolved_unknown.
      destruct (identities (a :: rest)) as [|z others] eqn:Hids; [contradiction|].
      destruct (firstOther z others) as [w|] eqn:Hf.
      * apply firstOther_some in Hf. destruct Hf as [Hw Hwz].
        exists z, w. repeat split; simpl; auto.
      * exfalso. rewrite firstOther_none in Hf.
        assert (Ex : x = z) by (destruct Hx as [Hx|Hx]; [auto | auto]).
        assert (Ey : y = z) by (destruct Hy as [Hy|Hy]; [auto | auto]).
        congruence.
    + intros Hne Hsame.
      destruct addrs as [|a rest]; [contradiction|].
      cbn [length Nat.eqb fst]. rewrite mergeResolved_unknown.
      destruct (identities (a :: rest)) as [|z others] eqn:Hids.
      * unfold transports.
        assert (Hf : filter carriesID (a :: rest) = []).
        { unfold identities in Hids. now apply map_eq_nil in Hids. }
        rewrite Hf. reflexivity.
      * destruct (firstOther z others) as [w|] eqn:Hf.
        -- apply firstOther_some in Hf. destruct Hf as [Hw Hwz].
           exfalso. apply Hwz. apply Hsame; simpl; auto.
        -- reflexivity.
Qed.

(** C9.  When the address does not itself name a peer and the resolver
    returns a non-empty list of addresses none of which carries an identity,
    [parseIpfsAddr] succeeds with the empty identity and no address, after
    the one call to the resolver. *)
Theorem parseIpfsAddr_no_identity (addr : string) (m : multiaddr L) (e : error)
    (addrs : list (multiaddr L)) :
  NewMultiaddr L addr = inr m ->
  AddrInfoFromP2pAddr L m = inl e ->
  madns_Resolve N m = inr addrs ->
  addrs <> [] ->
  Forall (fun a => snd (SplitAddr L a) = "") addrs ->
  parseIpfsAddr N addr = (inr (mkAddrInfo "" []), [EvResolve resolveTimeout m]).
Proof.
  intros Hm He Hr Hne Hall. unfold parseIpfsAddr. rewrite Hm, He, Hr.
  rewrite (mergeResolved_skips m addrs _ Hall).
  destruct addrs as [|a rest]; [contradiction|]. reflexivity.
Qed.

End Resolver.

(** C6, on the claim as written: a name whose two records are a bare
    transport address and an address of [QmTarget] resolves with success,
    and the record built holds only the second transport address: the first
    resolved address is not merged. *)
Lemma parseIpfsAddr_skips_bare_addresses :
  madns_Resolve (Ref.net true true Ref.dns) [("dnsaddr", "mixed.example")] =
    inr [[("ip4", "10.0.0.1"); ("tcp", "4001")];
         [("ip4", "10.0.0.2"); ("tcp", "4001"); ("p2p", "QmTarget")]]
  /\ fst (parseIpfsAddr (Ref.net true true Ref.dns) "/dnsaddr/mixed.example") =
       inr (mkAddrInfo "QmTarget" [Some [("ip4", "10.0.0.2"); ("tcp", "4001")]]).
Proof. split; reflexivity. Qed.

Lemma parseIpfsAddr_resolution_witness :
  parseIpfsAddr (Ref.net true true Ref.dns) "/p2p/QmTarget" =
    (inr (mkAddrInfo "QmTarget" []), [])
  /\ fst (parseIpfsAddr (Ref.net true true Ref.dns) "/dnsaddr/none.example") =
       inl "fail to resolve the multiaddr:/dnsaddr/none.example"
  /\ fst (parseIpfsAddr (Ref.net true true Ref.dns) "/dnsaddr/mixed.example") =
       inr (mkAddrInfo "QmTarget" [Some [("ip4", "10.0.0.2"); ("tcp", "4001")]]).
Proof.
  split; [|split].
  - exact (proj1 (parseIpfsAddr_resolution (L := Ref.codec) (Ref.net true true Ref.dns)
                    "/p2p/QmTarget" [("p2p", "QmTarget")] eq_refl) _ eq_refl).
  - exact (proj1 (proj2 (proj2 (parseIpfsAddr_resolution (L := Ref.codec)
                    (Ref.net true true Ref.dns)
                    "/dnsaddr/none.example" [("dnsaddr", "none.example")] eq_refl)
                    "invalid p2p multiaddr" [] eq_refl eq_refl)) eq_refl).
  - refine (proj2 (proj2 (proj2 (proj2 (parseIpfsAddr_resolution (L := Ref.codec)
                    (Ref.net true true Ref.dns)
                    "/dnsaddr/mixed.example" [("dnsaddr", "mixed.example")] eq_refl)
                    "invalid p2p multiaddr" _ eq_refl eq_refl))) _ _).
    + discriminate.
    + intros x y Hx Hy. simpl in Hx, Hy.
      destruct Hx as [<-|[]]. destruct Hy as [<-|[]]. reflexivity.
Defined.

Lemma parseIpfsAddr_no_identity_witness :
  parseIpfsAddr (Ref.net true true Ref.noDNS) "/ip4/1.2.3.4/tcp/80" =
    (inr (mkAddrInfo "" []),
     [EvResolve (L := Ref.codec) 10 [("ip4", "1.2.3.4"); ("tcp", "80")]]).
Proof.
  refine (parseIpfsAddr_no_identity (L := Ref.codec) (Ref.net true true Ref.noDNS)
            "/ip4/1.2.3.4/tcp/80" [("ip4", "1.2.3.4"); ("tcp", "80")]
            "invalid p2p multiaddr" [[("ip4", "1.2.3.4"); ("tcp", "80")]]
            eq_refl eq_refl eq_refl _ _).
  - discriminate.
  - repeat constructor.
Defined.

(** ** The health check *)

Section Health.

Context {L : Codec} (N : Net L).

(** C7.  On a client whose host is live, [CheckForwardHealth] returns nil
    exactly when the target resolves and the host opens a new stream to the
    resolved identity under the protocol, asked with the 30-second timeout.
    On success the client is unchanged (no stream is kept) and the last two
    events are the opening of the stream and the closing of that same
    stream; a failure of the resolution or of the stream is returned as the
    error. *)
Theorem CheckForwardHealth_probe (c : P2pClient L) (h : host) (proto peerId : string) :
  Host c = Some h ->
  healthTimeout = 30
  /\ ((exists c' log, CheckForwardHealth N proto peerId c = Ok None c' log) <->
      (exists targets s,
          fst (parseIpfsAddr N ("/p2p/" +++ peerId)) = inr targets /\
          Host_NewStream N 30 (ID targets) proto = inr s))
  /\ (forall c' log,
        CheckForwardHealth N proto peerId c = Ok None c' log ->
        c' = c /\
        exists targets s,
          fst (parseIpfsAddr N ("/p2p/" +++ peerId)) = inr targets /\
          Host_NewStream N 30 (ID targets) proto = inr s /\
          log = snd (parseIpfsAddr N ("/p2p/" +++ peerId))
                  ++ [EvNewStream 30 (ID targets) proto; EvStreamClose s])
  /\ (forall targets e,
        fst (parseIpfsAddr N ("/p2p/" +++ peerId)) = inr targets ->
        Host_NewStream N 30 (ID targets) proto = inl e ->
        CheckForwardHealth N proto peerId c =
        Ok (Some e) c (snd (parseIpfsAddr N ("/p2p/" +++ peerId))
                         ++ [EvNewStream 30 (ID targets) proto]))
  /\ (forall e,
        fst (parseIpfsAddr N ("/p2p/" +++ peerId)) = inl e ->
        CheckForwardHealth N proto peerId c =
        Ok (Some e) c (snd (parseIpfsAddr N ("/p2p/" +++ peerId)))).
Proof.
  intros Hh. split; [reflexivity|].
  unfold CheckForwardHealth, healthTimeout.
  destruct (parseIpfsAddr N ("/p2p/" +++ peerId)) as [[perr|targets] plog]; run;
    try rewrite Hh; simpl.
  - split; [|split; [|split]].
    + split.
      * intros [c' [log H]]. discriminate.
      * intros [t [s [H _]]]. discriminate.
    + intros c' log H. discriminate.
    + intros t e H. discriminate.
    + intros e H. inversion H. now rewrite app_nil_r.
  - destruct (Host_NewStream N 30 (ID targets) proto) as [e|s] eqn:Hs; simpl.
    + split; [|split; [|split]].
      * split.
        -- intros [c' [log H]]. discriminate.
        -- intros [t [s [Ht Hn]]]. inversion Ht. subst t. congruence.
      * intros c' log H. discriminate.
      * intros t e' Ht Hn. inversion Ht. subst t. rewrite Hs in Hn.
        inversion Hn. reflexivity.
      * intros e' H. discriminate.
    + split; [|split; [|split]].
      * split.
        -- intros _. exists targets, s. split; [reflexivity|assumption].
        -- intros _. eexists. eexists. reflexivity.
      * intros c' log H. inversion H. subst. split; [reflexivity|].
        exists targets, s. repeat split; auto.
      * intros t e' Ht Hn. inversion Ht. subst t. congruence.
      * intros e' H. discriminate.
Qed.

End Health.

Lemma CheckForwardHealth_probe_witness :
  (exists c' log,
      CheckForwardHealth (Ref.net true true Ref.noDNS) "/x/ssh" "QmTarget" (Ref.fresh []) =
      Ok None c' log)
  /\ CheckForwardHealth (Ref.net false true Ref.noDNS) "/x/ssh" "QmTarget" (Ref.fresh []) =
       Ok (Some "failed to dial") (Ref.fresh []) [EvNewStream 30 "QmTarget" "/x/ssh"].
Proof.
  split.
  - apply (proj2 (proj1 (proj2 (CheckForwardHealth_probe (L := Ref.codec)
             (Ref.net true true Ref.noDNS) (Ref.fresh []) (mkHost Ref.self)
             "/x/ssh" "QmTarget" eq_refl)))).
    exists (mkAddrInfo "QmTarget" []), 7. split; reflexivity.
  - exact (proj1 (proj2 (proj2 (proj2 (CheckForwardHealth_probe (L := Ref.codec)
             (Ref.net false true Ref.noDNS) (Ref.fresh []) (mkHost Ref.self)
             "/x/ssh" "QmTarget" eq_refl))))
             (mkAddrInfo "QmTarget" []) "failed to dial" eq_refl eq_refl).
Defined.

(** ** Forward: validation and fallback *)

Section Forwarding.

Context {L : Codec} (N : Net L).

(** C4.  With the empty peer identifier [Forward] returns the error
    "peer id cannot be empty", whatever the protocol, the port and the state
    of the client; the client, and with it both registries, is unchanged and
    nothing is asked of the network. *)
Theorem Forward_empty_peer_id (c : P2pClient L) (protoOpt : string) (port : Z) :
  Forward N protoOpt port "" c = Ok (Some "peer id cannot be empty") c [].
Proof. reflexivity. Qed.

(** The resolver never connects. *)
Lemma parseIpfsAddr_no_connect (addr : string) :
  filter isConnect (snd (parseIpfsAddr N addr)) = [].
Proof.
  unfold parseIpfsAddr.
  destruct (NewMultiaddr L addr) as [e|m]; [reflexivity|].
  destruct (AddrInfoFromP2pAddr L m); [|reflexivity].
  destruct (madns_Resolve N m) as [e'|addrs]; [reflexivity|].
  destruct (length addrs =? 0)%nat; reflexivity.
Qed.

(** The health check leaves the client as it is and never connects; what
    it returns depends on the client through its host only. *)
Lemma CheckForwardHealth_frame (proto peerId : string) (c c' : P2pClient L) :
  Host c = Host c' ->
  CheckForwardHealth N proto peerId c' = relocate c' (CheckForwardHealth N proto peerId c).
Proof.
  intros Hh. unfold CheckForwardHealth.
  destruct (parseIpfsAddr N ("/p2p/" +++ peerId)) as [[e|t] plog]; run.
  - reflexivity.
  - rewrite <- Hh. destruct (Host c); simpl; [|reflexivity].
    destruct (Host_NewStream N healthTimeout (ID t) proto); reflexivity.
Qed.

Lemma CheckForwardHealth_client (proto peerId : string) (c : P2pClient L) :
  clientOf (CheckForwardHealth N proto peerId c) = c.
Proof.
  rewrite (CheckForwardHealth_frame proto peerId c c eq_refl).
  destruct (CheckForwardHealth N proto peerId c); reflexivity.
Qed.

Lemma CheckForwardHealth_no_connect (proto peerId : string) (c : P2pClient L) :
  filter isConnect (logOf (CheckForwardHealth N proto peerId c)) = [].
Proof.
  unfold CheckForwardHealth.
  pose proof (parseIpfsAddr_no_connect ("/p2p/" +++ peerId)) as Hp.
  destruct (parseIpfsAddr N ("/p2p/" +++ peerId)) as [[e|t] plog]; simpl in Hp; run.
  - now rewrite app_nil_r.
  - destruct (Host c); simpl.
    + destruct (Host_NewStream N healthTimeout (ID t) proto); simpl;
        rewrite filter_app, Hp; reflexivity.
    + now rewrite app_nil_r.
Qed.

(** The circuit connection leaves the client as it is and connects at most
    once; it depends on the client through its host only. *)
Lemma ConnectCircuit_frame (circuitPeer targetPeer : string) (c c' : P2pClient L) :
  Host c = Host c' ->
  ConnectCircuit N circuitPeer targetPeer c' =
  relocate c' (ConnectCircuit N circuitPeer targetPeer c).
Proof.
  intros Hh. unfold ConnectCircuit, StringCast.
  destruct (NewMultiaddr L _) as [e|m]; run; [reflexivity|].
  destruct (AddrInfoFromP2pAddr L m) as [e|pi]; simpl; [reflexivity|].
  rewrite <- Hh. destruct (Host c); reflexivity.
Qed.

Lemma ConnectCircuit_connects (circuitPeer targetPeer : string) (c : P2pClient L) :
  length (filter isConnect (logOf (ConnectCircuit N circuitPeer targetPeer c))) <= 1.
Proof.
  unfold ConnectCircuit, StringCast.
  destruct (NewMultiaddr L _) as [e|m]; run; [lia|].
  destruct (AddrInfoFromP2pAddr L m) as [e|pi]; simpl; [lia|].
  destruct (Host c); simpl; lia.
Qed.

Lemma Forward_fallback_frame (peerId : string) (c c' : P2pClient L) :
  Host c = Host c' -> Peers c = Peers c' ->
  Forward_fallback N peerId c' = relocate c' (Forward_fallback N peerId c).
Proof.
  intros Hh Hp. unfold Forward_fallback. run. rewrite <- Hp.
  destruct (randomSubsetOfPeers N (convertPeers L (Peers c)) 1) as [|b rest]; simpl.
  - reflexivity.
  - rewrite (ConnectCircuit_frame (ID b) peerId c c' Hh).
    destruct (ConnectCircuit N (ID b) peerId c); reflexivity.
Qed.

Lemma randomSubsetOfPeers_nil (max : nat) : randomSubsetOfPeers N [] max = [].
Proof.
  unfold randomSubsetOfPeers. simpl length.
  rewrite skipn_nil, firstn_nil. simpl. apply firstn_nil.
Qed.

Lemma randomSubsetOfPeers_one (peers : list (addrInfo L)) :
  peers <> [] ->
  exists b, In b peers /\ randomSubsetOfPeers N peers 1 = [b].
Proof.
  intros Hne. unfold randomSubsetOfPeers.
  set (k := rand_Intn N (length peers) mod length peers).
  assert (Hk : k < length peers).
  { apply Nat.mod_upper_bound. destruct peers; [contradiction|discriminate]. }
  destruct (skipn k peers) as [|b rest] eqn:Hs.
  - apply (f_equal (@length _)) in Hs. rewrite length_skipn in Hs. simpl in Hs. lia.
  - exists b. split; [|reflexivity].
    rewrite <- (firstn_skipn k peers). apply in_or_app. right. rewrite Hs. now left.
Qed.

Lemma Forward_register_cases (protoOpt : string) (port : Z) (peerId : string)
    (c : P2pClient L) :
  filter isConnect (logOf (Forward_register N protoOpt port peerId c)) = []
  /\ match Forward_register N protoOpt port peerId c with
     | Panic c' _ => c' = c
     | Ok (Some _) c' _ => c' = c
     | Ok None c' _ => c' = c \/ registered N protoOpt port peerId c c'
     end.
Proof.
  unfold Forward_register.
  destruct (NewMultiaddr L ("/ip4/127.0.0.1/tcp/" +++ itoa port)) as [e|listen] eqn:Hl.
  { split; reflexivity. }
  pose proof (parseIpfsAddr_no_connect ("/p2p/" +++ peerId)) as Hp.
  destruct (parseIpfsAddr N ("/p2p/" +++ peerId)) as [parsed plog] eqn:Hparse.
  simpl in Hp. run.
  destruct (P2P c) as [pr|] eqn:Hpr; simpl.
  2:{ split; [now rewrite app_nil_r | reflexivity]. }
  destruct (filterListener (ListenersLocal pr) _) as [found|] eqn:Hf; simpl.
  2:{ split; [now rewrite app_nil_r | reflexivity]. }
  destruct (0 <? length found)%nat eqn:Hlen; simpl.
  { split; [now rewrite app_nil_r | now left]. }
  destruct (Host c) as [h|] eqn:Hh; simpl.
  2:{ split; [now rewrite app_nil_r | reflexivity]. }
  unfold forwardLocal, P2P_ForwardLocal. run.
  destruct parsed as [perr|target]; simpl.
  { split; [now rewrite app_nil_r | reflexivity]. }
  rewrite Hpr. simpl.
  destruct (bindLocal N protoOpt listen) as [e|]; simpl.
  { split; [rewrite filter_app, Hp; reflexivity | reflexivity]. }
  split; [rewrite filter_app, Hp; reflexivity |].
  right. unfold registered. exists pr, listen, target. eexists.
  split; [exact Hl|]. split; [exact Hpr|].
  split; [destruct found; [exact Hf | discriminate]|].
  split; [now rewrite Hparse|].
  split; [reflexivity|].
  reflexivity.
Qed.

Lemma ConnectCircuit_client (circuitPeer targetPeer : string) (c : P2pClient L) :
  clientOf (ConnectCircuit N circuitPeer targetPeer c) = c.
Proof.
  rewrite (ConnectCircuit_frame circuitPeer targetPeer c c eq_refl).
  destruct (ConnectCircuit N circuitPeer targetPeer c); reflexivity.
Qed.

Lemma Forward_fallback_client (peerId : string) (c : P2pClient L) :
  clientOf (Forward_fallback N peerId c) = c.
Proof.
  rewrite (Forward_fallback_frame peerId c c eq_refl eq_refl).
  destruct (Forward_fallback N peerId c); reflexivity.
Qed.

Lemma Forward_fallback_connects (peerId : string) (c : P2pClient L) :
  length (filter isConnect (logOf (Forward_fallback N peerId c))) <= 1.
Proof.
  unfold Forward_fallback. run.
  destruct (randomSubsetOfPeers N (convertPeers L (Peers c)) 1) as [|b rest]; simpl.
  - lia.
  - pose proof (ConnectCircuit_connects (ID b) peerId c) as Hc.
    destruct (ConnectCircuit N (ID b) peerId c); exact Hc.
Qed.

Lemma logOf_bind {A B} (m : M L A) (f : A -> M L B) (c : P2pClient L) :
  logOf (bind L m f c) =
  logOf (m c) ++ match m c with
                 | Ok a c1 _ => logOf (f a c1)
                 | Panic _ _ => []
                 end.
Proof.
  unfold bind. destruct (m c) as [a c1 l1|c1 l1]; simpl.
  - destruct (f a c1); reflexivity.
  - now rewrite app_nil_r.
Qed.

Lemma logOf_recover (m : M L (option error)) (c : P2pClient L) :
  logOf (recover L m c) = logOf (m c).
Proof. unfold recover. destruct (m c); reflexivity. Qed.

(** One call of [Forward] asks the host for at most one connection. *)
Lemma Forward_connects (protoOpt : string) (port : Z) (peerId : string) (c : P2pClient L) :
  length (filter isConnect (logOf (Forward N protoOpt port peerId c))) <= 1.
Proof.
  unfold Forward. destruct (peerId =? "")%string; [simpl; lia|].
  rewrite logOf_bind, filter_app, CheckForwardHealth_no_connect. simpl.
  destruct (CheckForwardHealth N protoOpt peerId c) as [[e|] c1 l1|c1 l1]; simpl; [| |lia].
  - rewrite logOf_recover, logOf_bind, filter_app, length_app.
    pose proof (Forward_fallback_connects peerId c1) as Hfb.
    destruct (Forward_fallback N peerId c1) as [[e'|] c2 l2|c2 l2]; simpl in *; try lia.
    destruct (Forward_register_cases protoOpt port peerId c2) as [Hr _].
    rewrite Hr. simpl. lia.
  - destruct (Forward_register_cases protoOpt port peerId c1) as [Hr _].
    rewrite Hr. simpl. lia.
Qed.

(** C5, the code when the health check fails.  Let the health check of a
    non-empty peer identifier fail.  With an empty relay set [Forward]
    returns the error "not enough bootstrap peers" and leaves the client
    unchanged.  With a non-empty relay set one relay of the set is selected
    and [ConnectCircuit] is called with it: an error it returns is returned
    by [Forward], the client unchanged; but a panic it raises is caught by
    the deferred [recover], and [Forward] then returns nil, the client
    unchanged: that failure does not reach the caller.  In every case the
    call asks the host for at most one connection. *)
Theorem Forward_health_failure (c hc : P2pClient L) (protoOpt : string) (port : Z)
    (peerId : string) (herr : error) (hlog : list (Event L)) :
  peerId <> "" ->
  CheckForwardHealth N protoOpt peerId c = Ok (Some herr) hc hlog ->
  (convertPeers L (Peers c) = [] ->
   Forward N protoOpt port peerId c = Ok (Some "not enough bootstrap peers") c hlog)
  /\ (convertPeers L (Peers c) <> [] ->
      exists b,
        In b (convertPeers L (Peers c)) /\
        randomSubsetOfPeers N (convertPeers L (Peers c)) 1 = [b] /\
        (forall e c' log,
            ConnectCircuit N (ID b) peerId c = Ok (Some e) c' log ->
            Forward N protoOpt port peerId c = Ok (Some e) c (hlog ++ log)) /\
        (forall c' log,
            ConnectCircuit N (ID b) peerId c = Panic c' log ->
            Forward N protoOpt port peerId c = Ok None c (hlog ++ log)))
  /\ length (filter isConnect (logOf (Forward N protoOpt port peerId c))) <= 1.
Proof.
  intros Hid Hh.
  assert (Hc : hc = c).
  { pose proof (CheckForwardHealth_client protoOpt peerId c) as H.
    rewrite Hh in H. exact H. }
  subst hc.
  assert (Hne : (peerId =? "")%string = false) by now apply String.eqb_neq.
  split; [|split].
  - intros Hp. unfold Forward. rewrite Hne. unfold bind at 1. rewrite Hh.
    unfold Forward_fallback. run. rewrite Hp, randomSubsetOfPeers_nil. simpl.
    now rewrite app_nil_r.
  - intros Hp. destruct (randomSubsetOfPeers_one _ Hp) as [b [Hb Hr]].
    exists b. split; [exact Hb|]. split; [exact Hr|]. split.
    + intros e c' log Hcc.
      assert (c' = c).
      { pose proof (ConnectCircuit_client (ID b) peerId c) as H.
        rewrite Hcc in H. exact H. }
      subst c'.
      unfold Forward. rewrite Hne. unfold bind at 1. rewrite Hh.
      unfold Forward_fallback. run. rewrite Hr, Hcc. simpl.
      now rewrite app_nil_r.
    + intros c' log Hcc.
      assert (c' = c).
      { pose proof (ConnectCircuit_client (ID b) peerId c) as H.
        rewrite Hcc in H. exact H. }
      subst c'.
      unfold Forward. rewrite Hne. unfold bind at 1. rewrite Hh.
      unfold Forward_fallback. run. rewrite Hr, Hcc. reflexivity.
  - apply Forward_connects.
Qed.

(** *** Idempotence *)

Lemma sameForward_hasTriple (protoOpt : string) (listen target : multiaddr L)
    (l : Listener L) (b : bool) :
  sameForward protoOpt listen (Some target) l = Some b ->
  b = hasTriple protoOpt (ma_String L listen) (ma_String L target) l.
Proof.
  unfold sameForward, hasTriple.
  destruct (Protocol l =? protoOpt)%string; simpl; [|congruence].
  destruct (textOf (ListenAddress l)) as [la|]; [|discriminate].
  destruct (la =? ma_String L listen)%string; simpl; [|congruence].
  destruct (textOf (TargetAddress l)) as [ta|]; [|discriminate].
  congruence.
Qed.

Lemma hasTriple_sameForward (protoOpt : string) (listen target : multiaddr L)
    (l : Listener L) :
  hasTriple protoOpt (ma_String L listen) (ma_String L target) l = true ->
  sameForward protoOpt listen (Some target) l = Some true.
Proof.
  unfold sameForward, hasTriple.
  destruct (Protocol l =? protoOpt)%string; simpl; [|discriminate].
  destruct (textOf (ListenAddress l)) as [la|]; [|discriminate].
  destruct (la =? ma_String L listen)%string; simpl; [|discriminate].
  destruct (textOf (TargetAddress l)) as [ta|]; [|discriminate].
  congruence.
Qed.

Lemma filterListener_filter (protoOpt : string) (listen target : multiaddr L)
    (ls found : list (Listener L)) :
  filterListener ls (sameForward protoOpt listen (Some target)) = Some found ->
  found = filter (hasTriple protoOpt (ma_String L listen) (ma_String L target)) ls.
Proof.
  revert found. induction ls as [|l rest IH]; intros found H; simpl in *.
  - congruence.
  - destruct (sameForward protoOpt listen (Some target) l) as [b|] eqn:Hb; [|discriminate].
    destruct (filterListener rest _) as [todo|]; [|discriminate].
    apply sameForward_hasTriple in Hb. rewrite <- Hb.
    specialize (IH todo eq_refl). subst todo.
    destruct b; congruence.
Qed.

Lemma filterListener_app (f : Listener L -> option bool) (ls found : list (Listener L))
    (l : Listener L) :
  filterListener ls f = Some found ->
  f l = Some true ->
  filterListener (ls ++ [l]) f = Some (found ++ [l]).
Proof.
  revert found. induction ls as [|x rest IH]; intros found H Hl; simpl in *.
  - inversion H. subst. now rewrite Hl.
  - destruct (f x) as [b|]; [|discriminate].
    destruct (filterListener rest f) as [todo|]; [|discriminate].
    rewrite (IH todo eq_refl Hl). inversion H. destruct b; reflexivity.
Qed.

(** When the filter finds a forward, [Forward_register] returns nil and
    leaves the client as it is. *)
Lemma Forward_register_found (protoOpt : string) (port : Z) (peerId : string)
    (c : P2pClient L) (pr : ipfsp2p L) (listen : multiaddr L)
    (x : Listener L) (xs : list (Listener L)) :
  NewMultiaddr L ("/ip4/127.0.0.1/tcp/" +++ itoa port) = inr listen ->
  P2P c = Some pr ->
  filterListener (ListenersLocal pr)
    (sameForward protoOpt listen (addrOrNil ("/p2p/" +++ peerId))) = Some (x :: xs) ->
  exists log, Forward_register N protoOpt port peerId c = Ok None c log.
Proof.
  intros Hl Hpr Hf. unfold Forward_register. rewrite Hl.
  destruct (parseIpfsAddr N ("/p2p/" +++ peerId)) as [parsed plog].
  run. rewrite Hpr. simpl. rewrite Hf. simpl. eexists. reflexivity.
Qed.

(** How a call of [Forward] that returns nil got there: without touching
    the client, or through the health check (or the fallback after it) and a
    registration. *)
Lemma Forward_outcome (protoOpt : string) (port : Z) (peerId : string)
    (c c1 : P2pClient L) (log1 : list (Event L)) :
  Forward N protoOpt port peerId c = Ok None c1 log1 ->
  c1 = c \/
  (((exists hl, CheckForwardHealth N protoOpt peerId c = Ok None c hl) \/
    (exists e hl fl, CheckForwardHealth N protoOpt peerId c = Ok (Some e) c hl /\
                     Forward_fallback N peerId c = Ok None c fl))
   /\ registered N protoOpt port peerId c c1).
Proof.
  unfold Forward. destruct (peerId =? "")%string; [discriminate|].
  unfold bind at 1.
  pose proof (CheckForwardHealth_client protoOpt peerId c) as Hhc.
  destruct (CheckForwardHealth N protoOpt peerId c) as [[e|] hc hl|hc hl];
    simpl in Hhc; subst hc; [| |discriminate].
  - unfold recover, bind.
    pose proof (Forward_fallback_client peerId c) as Hfc.
    destruct (Forward_fallback N peerId c) as [[e'|] fc fl|fc fl];
      simpl in Hfc; subst fc.
    + discriminate.
    + pose proof (Forward_register_cases protoOpt port peerId c) as [_ Hr].
      destruct (Forward_register N protoOpt port peerId c) as [[e'|] rc rl|rc rl].
      * discriminate.
      * intros H. inversion H. subst.
        destruct Hr as [Hr|Hr]; [now left|].
        right. split; [|exact Hr]. right. exists e, hl, fl. split; reflexivity.
      * intros H. inversion H. subst. now left.
    + intros H. inversion H. now left.
  - pose proof (Forward_register_cases protoOpt port peerId c) as [_ Hr].
    destruct (Forward_register N protoOpt port peerId c) as [[e'|] rc rl|rc rl].
    + discriminate.
    + intros H. inversion H. subst.
      destruct Hr as [Hr|Hr]; [now left|].
      right. split; [|exact Hr]. left. exists hl. reflexivity.
    + discriminate.
Qed.

(** C1 (amended).  Let [listen] and [target] be the addresses of the texts
    [/ip4/127.0.0.1/tcp/<port>] and [/p2p/<peerId>].  If a call of [Forward]
    returns nil and leaves a forward with the triple (protocol, text of
    [listen], text of [target]) in the local-bind registry, then a second
    call with the same arguments, under the same answers of the network,
    returns nil and leaves the client, and so both registries, exactly as
    the first call left them; the forwards with that triple are then as
    many as before the first call, and exactly one if there was none. *)
Theorem Forward_twice (c c1 : P2pClient L) (protoOpt : string) (port : Z)
    (peerId : string) (listen target : multiaddr L) (log1 : list (Event L)) :
  NewMultiaddr L ("/ip4/127.0.0.1/tcp/" +++ itoa port) = inr listen ->
  NewMultiaddr L ("/p2p/" +++ peerId) = inr target ->
  Forward N protoOpt port peerId c = Ok None c1 log1 ->
  0 < countTriple protoOpt (ma_String L listen) (ma_String L target) c1 ->
  (exists log2, Forward N protoOpt port peerId c1 = Ok None c1 log2)
  /\ countTriple protoOpt (ma_String L listen) (ma_String L target) c1 =
     Nat.max 1 (countTriple protoOpt (ma_String L listen) (ma_String L target) c).
Proof.
  intros Hl Ht H1 Hcount.
  destruct (Forward_outcome _ _ _ _ _ _ H1) as [Hsame|[Hpass Hreg]].
  { subst c1. split; [now exists log1 | lia]. }
  destruct Hreg as [pr [listen' [tinfo [tgt [Hl' [Hpr [Hf [Hparse [Htgt Hc1]]]]]]]]].
  rewrite Hl in Hl'. inversion Hl'. subst listen'. clear Hl'.
  assert (Hta : addrOrNil ("/p2p/" +++ peerId) = Some target)
    by (unfold addrOrNil; now rewrite Ht).
  rewrite Hta in Hf.
  pose proof (filterListener_filter _ _ _ _ _ Hf) as Hnone.
  set (new := mkListener protoOpt (Some listen) tgt) in *.
  assert (Hc0 : countTriple protoOpt (ma_String L listen) (ma_String L target) c = 0).
  { unfold countTriple, forwards. rewrite Hpr. simpl. now rewrite <- Hnone. }
  assert (Hc1' : countTriple protoOpt (ma_String L listen) (ma_String L target) c1 =
                 if hasTriple protoOpt (ma_String L listen) (ma_String L target) new
                 then 1 else 0).
  { rewrite Hc1. unfold countTriple, forwards. simpl.
    rewrite filter_app, <- Hnone. simpl.
    destruct (hasTriple protoOpt (ma_String L listen) (ma_String L target) new);
      reflexivity. }
  destruct (hasTriple protoOpt (ma_String L listen) (ma_String L target) new) eqn:Hnew;
    [|lia].
  split; [|rewrite Hc1', Hc0; reflexivity].
  assert (Hh : Host c = Host c1) by (rewrite Hc1; reflexivity).
  assert (Hp : Peers c = Peers c1) by (rewrite Hc1; reflexivity).
  assert (Hreg1 : exists log, Forward_register N protoOpt port peerId c1 = Ok None c1 log).
  { apply (Forward_register_found protoOpt port peerId c1
             (mkP2P (identity pr) (ListenersLocal pr ++ [new]) (ListenersP2P pr) (Streams pr))
             listen new []).
    - exact Hl.
    - rewrite Hc1. reflexivity.
    - rewrite Hta. simpl.
      apply (filterListener_app _ _ [] new Hf).
      now apply hasTriple_sameForward. }
  destruct Hreg1 as [rlog Hreg1].
  assert (Hne : (peerId =? "")%string = false).
  { destruct (peerId =? "")%string eqn:E; [|reflexivity].
    unfold Forward in H1. rewrite E in H1. discriminate. }
  unfold Forward. rewrite Hne. unfold bind at 1.
  rewrite (CheckForwardHealth_frame protoOpt peerId c c1 Hh).
  destruct Hpass as [[hl Hhl]|[e [hl [fl [Hhl Hfl]]]]]; rewrite Hhl; simpl.
  - rewrite Hreg1. eexists. reflexivity.
  - unfold recover, bind.
    rewrite (Forward_fallback_frame peerId c c1 Hh Hp), Hfl. simpl.
    rewrite Hreg1. eexists. reflexivity.
Qed.

End Forwarding.

Lemma Forward_twice_witness :
  (exists log2, Forward Ref.up "/x/ssh" 8000 "QmTarget" Ref.once = Ok None Ref.once log2)
  /\ countTriple "/x/ssh" "/ip4/127.0.0.1/tcp/8000" "/p2p/QmTarget" Ref.once = 1.
Proof.
  destruct (Forward_twice (L := Ref.codec) Ref.up (Ref.fresh []) Ref.once
              "/x/ssh" 8000 "QmTarget"
              [("ip4", "127.0.0.1"); ("tcp", "8000")] [("p2p", "QmTarget")]
              [EvNewStream 30 "QmTarget" "/x/ssh"; EvStreamClose 7;
               EvAddAddrs "QmTarget" []]
              eq_refl eq_refl eq_refl (Nat.lt_0_1)) as [Hsecond Hone].
  split; [exact Hsecond | exact Hone].
Defined.

(** C1, on the claim as written.  With the empty peer identifier both
    calls return the error and no forward is registered.  And after a first
    call that registered the forward, a second call with the same arguments
    made while the peer does not answer and no relay is configured returns
    the error of the fallback: the health check comes before the look-up in
    the registry, which still holds the one forward. *)
Lemma Forward_twice_not_for_every_call :
  Forward Ref.up "/x/ssh" 8000 "" (Ref.fresh []) =
    Ok (Some "peer id cannot be empty") (Ref.fresh []) []
  /\ Forward Ref.up "/x/ssh" 8000 ""
       (clientOf (Forward Ref.up "/x/ssh" 8000 "" (Ref.fresh []))) =
       Ok (Some "peer id cannot be empty") (Ref.fresh []) []
  /\ forwards LocalBind (Ref.fresh []) = []
  /\ Forward Ref.up "/x/ssh" 8000 "QmTarget" (Ref.fresh []) =
       Ok None Ref.once
          [EvNewStream 30 "QmTarget" "/x/ssh"; EvStreamClose 7; EvAddAddrs "QmTarget" []]
  /\ Forward (Ref.net false false Ref.noDNS) "/x/ssh" 8000 "QmTarget" Ref.once =
       Ok (Some "not enough bootstrap peers") Ref.once [EvNewStream 30 "QmTarget" "/x/ssh"]
  /\ countTriple "/x/ssh" "/ip4/127.0.0.1/tcp/8000" "/p2p/QmTarget" Ref.once = 1.
Proof. repeat split. Qed.

Lemma Forward_health_failure_witness :
  CheckForwardHealth (Ref.net false true Ref.noDNS) "/x/ssh" "garbage" (Ref.fresh [Ref.relay]) =
    Ok (Some "failed to parse multiaddr: /p2p/garbage") (Ref.fresh [Ref.relay]) []
  /\ convertPeers Ref.codec (Peers (Ref.fresh [Ref.relay])) =
       [mkAddrInfo "12D3KooWRelay" [Some [("ip4", "34.139.126.73"); ("tcp", "4001")]]]
  /\ ConnectCircuit (Ref.net false true Ref.noDNS) "12D3KooWRelay" "garbage"
       (Ref.fresh [Ref.relay]) = Panic (Ref.fresh [Ref.relay]) []
  /\ Forward (Ref.net false true Ref.noDNS) "/x/ssh" 8000 "garbage" (Ref.fresh [Ref.relay]) =
       Ok None (Ref.fresh [Ref.relay]) [].
Proof.
  split; [reflexivity|]. split; [reflexivity|]. split; [reflexivity|].
  destruct (Forward_health_failure (L := Ref.codec) (Ref.net false true Ref.noDNS)
              (Ref.fresh [Ref.relay]) (Ref.fresh [Ref.relay]) "/x/ssh" 8000 "garbage"
              "failed to parse multiaddr: /p2p/garbage" []
              ltac:(discriminate) eq_refl) as [_ [Hrelay _]].
  destruct (Hrelay ltac:(discriminate)) as [b [_ [Hb [_ Hpanic]]]].
  injection Hb as Hb. subst b.
  exact (Hpanic (Ref.fresh [Ref.relay]) [] eq_refl).
Defined.

(** ** Close *)

Section Closing.

Context {L : Codec}.

(** The scan of [Close] over forwards that all have a target address, when
    [Equal] agrees with equality of the texts on them. *)
Lemma Listeners_scan_sameTarget (a : multiaddr L) (ls : list (Listener L)) :
  (forall l, In l ls -> TargetAddress l <> None) ->
  (forall l t, In l ls -> TargetAddress l = Some t ->
               (ma_Equal L a t = true <-> ma_String L t = ma_String L a)) ->
  Listeners_scan (sameTarget a) ls =
  Some (filter (fun l => negb (targetIs (ma_String L a) l)) ls,
        filter (targetIs (ma_String L a)) ls).
Proof.
  induction ls as [|l rest IH]; intros Hnn Heq.
  - reflexivity.
  - cbn [Listeners_scan filter].
    rewrite IH;
      [| intros x Hx; apply Hnn; now right
       | intros x t Hx; apply Heq; now right].
    destruct (TargetAddress l) as [t|] eqn:Ht.
    + assert (Hs : sameTarget a l = Some (targetIs (ma_String L a) l)).
      { unfold sameTarget, targetIs, textOf. rewrite Ht. f_equal.
        specialize (Heq l t (or_introl eq_refl) Ht).
        destruct (ma_Equal L a t); destruct (ma_String L t =? ma_String L a)%string eqn:E;
          try reflexivity.
        - apply String.eqb_neq in E. destruct E. now apply Heq.
        - apply String.eqb_eq in E. apply Heq in E. discriminate. }
      rewrite Hs. destruct (targetIs (ma_String L a) l); reflexivity.
    + exfalso. now apply (Hnn l (or_introl eq_refl)).
Qed.

Lemma filter_gone_kept {A} (g : A -> bool) (ls : list A) :
  filter g (filter (fun x => negb (g x)) ls) = [].
Proof.
  induction ls as [|x rest IH]; simpl; [reflexivity|].
  destruct (g x) eqn:E; simpl; [exact IH|]. now rewrite E.
Qed.

Lemma filter_kept_kept {A} (g : A -> bool) (ls : list A) :
  filter (fun x => negb (g x)) (filter (fun x => negb (g x)) ls) =
  filter (fun x => negb (g x)) ls.
Proof.
  induction ls as [|x rest IH]; simpl; [reflexivity|].
  destruct (g x) eqn:E; simpl; [exact IH|]. rewrite E. simpl. now rewrite IH.
Qed.

(** C10.  When the target text does not parse, [Close] returns the count 0
    with the parse error; the client, and with it both registries, is
    unchanged and no forward is closed. *)
Theorem Close_unparseable (c : P2pClient L) (target : string) (e : error) :
  NewMultiaddr L target = inl e ->
  Close target c = Ok (0, Some e) c [].
Proof. intros H. unfold Close. now rewrite H. Qed.

(** C2 (amended).  On a live client whose forwards all have a target address, and
    with [Equal] agreeing with equality of the texts on the addresses
    involved: [Close(addr)] closes and removes, in either registry, exactly
    the forwards whose target address has the text of the address [addr]
    denotes, and returns their number; called again on the resulting
    client it returns 0 and changes nothing.  When [addr] denotes no
    address, no forward is closed and the count is 0. *)
Theorem Close_by_target (c : P2pClient L) (p : ipfsp2p L) (addr : string) :
  P2P c = Some p ->
  (forall l, In l (ListenersLocal p ++ ListenersP2P p) -> TargetAddress l <> None) ->
  (forall a l t, NewMultiaddr L addr = inr a ->
                 In l (ListenersLocal p ++ ListenersP2P p) ->
                 TargetAddress l = Some t ->
                 (ma_Equal L a t = true <-> ma_String L t = ma_String L a)) ->
  match NewMultiaddr L addr with
  | inl e => Close addr c = Ok (0, Some e) c []
  | inr a =>
      let gone := targetIs (ma_String L a) in
      let kept := fun l => negb (gone l) in
      let c' := mkClient (Host c)
                  (Some (mkP2P (identity p) (filter kept (ListenersLocal p))
                           (filter kept (ListenersP2P p)) (Streams p)))
                  (Peers c) in
      Close addr c =
        Ok (length (filter gone (ListenersLocal p)) + length (filter gone (ListenersP2P p)),
            None)
           c'
           (map EvListenerClose (filter gone (ListenersLocal p))
              ++ map EvListenerClose (filter gone (ListenersP2P p)))
      /\ Close addr c' = Ok (0, None) c' []
  end.
Proof.
  intros Hp Hnn Heq.
  destruct (NewMultiaddr L addr) as [e|a] eqn:Ha.
  { unfold Close. now rewrite Ha. }
  assert (Hnl : forall l, In l (ListenersLocal p) -> TargetAddress l <> None)
    by (intros; apply Hnn; apply in_or_app; now left).
  assert (Hnr : forall l, In l (ListenersP2P p) -> TargetAddress l <> None)
    by (intros; apply Hnn; apply in_or_app; now right).
  assert (Hel : forall l t, In l (ListenersLocal p) -> TargetAddress l = Some t ->
                (ma_Equal L a t = true <-> ma_String L t = ma_String L a))
    by (intros; eapply Heq; eauto; apply in_or_app; now left).
  assert (Her : forall l t, In l (ListenersP2P p) -> TargetAddress l = Some t ->
                (ma_Equal L a t = true <-> ma_String L t = ma_String L a))
    by (intros; eapply Heq; eauto; apply in_or_app; now right).
  cbv zeta. split.
  - unfold Close. rewrite Ha. unfold Listeners_Close. run. rewrite Hp. simpl.
    rewrite (Listeners_scan_sameTarget a _ Hnl Hel). simpl.
    rewrite (Listeners_scan_sameTarget a _ Hnr Her). simpl.
    rewrite ?length_map, ?app_nil_r. reflexivity.
  - unfold Close. rewrite Ha. unfold Listeners_Close. run.
    rewrite Listeners_scan_sameTarget.
    + simpl. rewrite Listeners_scan_sameTarget.
      * simpl. rewrite !filter_gone_kept, !filter_kept_kept. reflexivity.
      * intros l Hl. apply filter_In in Hl. now apply Hnr.
      * intros l t Hl. apply filter_In in Hl. now apply Her.
    + intros l Hl. apply filter_In in Hl. now apply Hnl.
    + intros l t Hl. apply filter_In in Hl. now apply Hel.
Qed.

End Closing.

Lemma Close_unparseable_witness :
  Close "not-a-multiaddr" Ref.both =
    Ok (0, Some "failed to parse multiaddr: not-a-multiaddr") Ref.both [].
Proof.
  exact (Close_unparseable (L := Ref.codec) Ref.both "not-a-multiaddr" _ eq_refl).
Defined.

Lemma Close_by_target_witness :
  (exists c' log,
      Close "/p2p/QmTarget" Ref.both = Ok (1, None) c' log
      /\ forwards LocalBind c' = []
      /\ forwards OverlayBind c' = forwards OverlayBind Ref.both
      /\ Close "/p2p/QmTarget" c' = Ok (0, None) c' []).
Proof.
  pose proof (Close_by_target (L := Ref.codec) Ref.both
                (mkP2P Ref.self (forwards LocalBind Ref.both) (forwards OverlayBind Ref.both) [])
                "/p2p/QmTarget" eq_refl) as H.
  cbv zeta in H.
  destruct H as [Hfirst Hsecond].
  - intros l [<-|[<-|[]]]; discriminate.
  - intros a l t Ha. inversion Ha. subst a.
    intros [<-|[<-|[]]] Ht; inversion Ht; subst t; split; intros; reflexivity || discriminate.
  - eexists. eexists. split; [exact Hfirst|].
    split; [reflexivity|]. split; [reflexivity|]. exact Hsecond.
Defined.

(** C2, on the claim as written.  [Close] compares addresses, not texts:
    with a trailing slash, or with the old protocol name [ipfs], the given
    text differs from the text of the target address of the forward that is
    closed. *)
Lemma Close_compares_addresses :
  Close "/ip4/127.0.0.1/tcp/80/" Ref.both =
    Ok (1, None) Ref.once
       [EvListenerClose
          (mkListener (L := Ref.codec) "/x/ssh" (Some [("p2p", "QmSelf")])
             (Some [("ip4", "127.0.0.1"); ("tcp", "80")]))]
  /\ textOf (L := Ref.codec) (Some [("ip4", "127.0.0.1"); ("tcp", "80")]) =
       Some "/ip4/127.0.0.1/tcp/80"
  /\ ("/ip4/127.0.0.1/tcp/80" =? "/ip4/127.0.0.1/tcp/80/")%string = false
  /\ Close "/ipfs/QmTarget" Ref.once =
       Ok (1, None) (Ref.fresh [])
          [EvListenerClose
             (mkListener (L := Ref.codec) "/x/ssh"
                (Some [("ip4", "127.0.0.1"); ("tcp", "8000")])
                (Some [("p2p", "QmTarget")]))]
  /\ textOf (L := Ref.codec) (Some [("p2p", "QmTarget")]) = Some "/p2p/QmTarget".
Proof. repeat split. Qed.

(** ** Destroy, and the client after it *)

Section Destroying.

Context {L : Codec}.

Lemma Listeners_scan_all (ls : list (Listener L)) :
  Listeners_scan (fun _ => Some true) ls = Some ([], ls).
Proof.
  induction ls as [|l rest IH]; simpl; [reflexivity|]. now rewrite IH.
Qed.

(** On a live client [Destroy] closes the raw streams, the forwards of both
    registries and the host, clears both references and returns what
    closing the host returned. *)
Lemma Destroy_live (N : Net L) (c : P2pClient L) (h : host) (p : ipfsp2p L) :
  Host c = Some h ->
  P2P c = Some p ->
  Destroy N c =
  Ok (Host_Close N) (mkClient None None (Peers c))
     (map EvStreamReset (Streams p)
        ++ map EvListenerClose (ListenersP2P p)
        ++ map EvListenerClose (ListenersLocal p)
        ++ [EvHostClose]).
Proof.
  intros Hh Hp. unfold Destroy, closeStreams, Listeners_Close. run.
  rewrite Hp. simpl. rewrite Listeners_scan_all. simpl.
  rewrite Listeners_scan_all. simpl. rewrite ?Hh. simpl.
  rewrite ?app_nil_r. f_equal.
Qed.

(** C3 (amended).  After [Destroy] has returned on a live client, both
    references of the client are nil and no operation reports that the
    client is closed.  [List] and [Listen] panic; [Close] returns the count 0
    with the parse error when its target does not parse and panics
    otherwise; [Forward] returns "peer id cannot be empty" for the empty
    peer identifier, panics when the peer identifier resolves (the health
    check calls the host), and in every case leaves the client destroyed;
    a second [Destroy] panics. *)
Theorem after_Destroy (N : Net L) (c : P2pClient L) (h : host) (p : ipfsp2p L) :
  Host c = Some h ->
  P2P c = Some p ->
  exists log,
    let c' := mkClient None None (Peers c) in
    Destroy N c = Ok (Host_Close N) c' log
    /\ List c' = Panic c' []
    /\ (forall N' proto targetOpt, Listen N' proto targetOpt c' = Panic c' [])
    /\ (forall target,
          Close target c' =
          match NewMultiaddr L target with
          | inl e => Ok (0, Some e) c' []
          | inr _ => Panic c' []
          end)
    /\ (forall N' protoOpt port,
          Forward N' protoOpt port "" c' = Ok (Some "peer id cannot be empty") c' [])
    /\ (forall N' protoOpt port peerId targets,
          peerId <> "" ->
          fst (parseIpfsAddr N' ("/p2p/" +++ peerId)) = inr targets ->
          Forward N' protoOpt port peerId c' =
          Panic c' (snd (parseIpfsAddr N' ("/p2p/" +++ peerId))))
    /\ (forall N' protoOpt port peerId,
          clientOf (Forward N' protoOpt port peerId c') = c')
    /\ (forall N', Destroy N' c' = Panic c' []).
Proof.
  intros Hh Hp. eexists. cbv zeta.
  split; [exact (Destroy_live N c h p Hh Hp)|].
  split; [reflexivity|].
  split; [reflexivity|].
  split.
  { intros target. unfold Close. destruct (NewMultiaddr L target); reflexivity. }
  split; [reflexivity|].
  split.
  { intros N' protoOpt port peerId targets Hid Hparse.
    unfold Forward. apply String.eqb_neq in Hid. rewrite Hid.
    unfold CheckForwardHealth.
    destruct (parseIpfsAddr N' ("/p2p/" +++ peerId)) as [[e|t] plog]; [discriminate|].
    run. now rewrite app_nil_r. }
  split; [|reflexivity].
  intros N' protoOpt port peerId.
  set (c' := mkClient None None (Peers c)).
  unfold Forward. destruct (peerId =? "")%string; [reflexivity|].
  unfold bind at 1.
  pose proof (CheckForwardHealth_client N' protoOpt peerId c') as Hhc.
  destruct (CheckForwardHealth N' protoOpt peerId c') as [[e|] hc hl|hc hl];
    simpl in Hhc; subst hc; [| |reflexivity].
  - unfold recover, bind.
    pose proof (Forward_fallback_client N' peerId c') as Hfc.
    destruct (Forward_fallback N' peerId c') as [[e'|] fc fl|fc fl];
      simpl in Hfc; subst fc; try reflexivity.
    pose proof (Forward_register_cases N' protoOpt port peerId c') as [_ Hr].
    destruct (Forward_register N' protoOpt port peerId c') as [[e'|] rc rl|rc rl];
      simpl; try exact Hr.
    destruct Hr as [Hr|[pr [? [? [? [_ [Hpr _]]]]]]]; [exact Hr | discriminate].
  - pose proof (Forward_register_cases N' protoOpt port peerId c') as [_ Hr].
    destruct (Forward_register N' protoOpt port peerId c') as [[e'|] rc rl|rc rl];
      simpl; try exact Hr.
    destruct Hr as [Hr|[pr [? [? [? [_ [Hpr _]]]]]]]; [exact Hr | discriminate].
Qed.

End Destroying.

Lemma after_Destroy_witness :
  Destroy Ref.up Ref.both =
    Ok None (mkClient None None [])
       [EvListenerClose
          (mkListener (L := Ref.codec) "/x/ssh" (Some [("p2p", "QmSelf")])
             (Some [("ip4", "127.0.0.1"); ("tcp", "80")]));
        EvListenerClose
          (mkListener (L := Ref.codec) "/x/ssh"
             (Some [("ip4", "127.0.0.1"); ("tcp", "8000")])
             (Some [("p2p", "QmTarget")]));
        EvHostClose]
  /\ Listen Ref.up "/x/ssh" "/ip4/127.0.0.1/tcp/80" (mkClient None None []) =
       Panic (mkClient None None []) [].
Proof.
  destruct (after_Destroy (L := Ref.codec) Ref.up Ref.both (mkHost Ref.self)
              (mkP2P Ref.self (forwards LocalBind Ref.both) (forwards OverlayBind Ref.both) [])
              eq_refl eq_refl) as [log H].
  cbv zeta in H. destruct H as [Hd [_ [Hlisten _]]].
  split; [reflexivity | exact (Hlisten Ref.up "/x/ssh" "/ip4/127.0.0.1/tcp/80")].
Defined.

(** C3, on the claim as written.  After [Destroy] on the client of the
    scenario, [List] and [Listen] panic, [Close] of a well-formed target
    panics, [Forward] to a well-formed peer panics, and [Forward] with the
    empty peer identifier returns its own error: none of them returns an
    error saying that the client is closed. *)
Lemma operations_after_Destroy :
  Destroy Ref.up Ref.once =
    Ok None (mkClient None None [])
       [EvListenerClose
          (mkListener (L := Ref.codec) "/x/ssh"
             (Some [("ip4", "127.0.0.1"); ("tcp", "8000")])
             (Some [("p2p", "QmTarget")]));
        EvHostClose]
  /\ List (clientOf (Destroy Ref.up Ref.once)) = Panic (mkClient None None []) []
  /\ Listen Ref.up "/x/ssh" "/ip4/127.0.0.1/tcp/80" (clientOf (Destroy Ref.up Ref.once)) =
       Panic (mkClient None None []) []
  /\ Close "/p2p/QmTarget" (clientOf (Destroy Ref.up Ref.once)) =
       Panic (mkClient None None []) []
  /\ Forward Ref.up "/x/ssh" 8000 "QmTarget" (clientOf (Destroy Ref.up Ref.once)) =
       Panic (mkClient None None []) []
  /\ Forward Ref.up "/x/ssh" 8000 "" (clientOf (Destroy Ref.up Ref.once)) =
       Ok (Some "peer id cannot be empty") (mkClient None None []) [].
Proof. repeat split. Qed.

(** ** Listen *)

Section Listening.

Context {L : Codec} (N : Net L).

(** C8, the code at the failing input.  On a live client, when the target
    text does not parse and the overlay side accepts the protocol, [Listen]
    returns nil and a forward whose target address is nil is registered in
    the overlay-bind registry. *)
Theorem Listen_unparseable_target (c : P2pClient L) (p : ipfsp2p L)
    (proto targetOpt : string) (e : error) :
  P2P c = Some p ->
  NewMultiaddr L targetOpt = inl e ->
  acceptRemote N proto None = None ->
  Listen N proto targetOpt c =
  Ok None
     (mkClient (Host c)
        (Some (mkP2P (identity p) (ListenersLocal p)
                 (ListenersP2P p
                    ++ [mkListener proto (addrOrNil ("/p2p/" +++ identity p)) None])
                 (Streams p)))
        (Peers c))
     [].
Proof.
  intros Hp He Ha.
  assert (Hnil : addrOrNil targetOpt = None) by (unfold addrOrNil; now rewrite He).
  unfold Listen, P2P_ForwardRemote. rewrite Hnil.
  run. rewrite Hp. simpl. rewrite Ha. reflexivity.
Qed.

(** A call of [Listen] that returns an error leaves the client as it is. *)
Lemma Listen_error (c c' : P2pClient L) (proto targetOpt : string) (e : error)
    (log : list (Event L)) :
  Listen N proto targetOpt c = Ok (Some e) c' log -> c' = c /\ log = [].
Proof.
  unfold Listen, P2P_ForwardRemote. run.
  destruct (P2P c) as [p|]; simpl; [|discriminate].
  destruct (acceptRemote N proto (addrOrNil targetOpt)); simpl.
  - intros H. inversion H. now split.
  - discriminate.
Qed.

End Listening.

Lemma Listen_unparseable_target_witness :
  Listen Ref.up "/x/ssh" "not-a-multiaddr" (Ref.fresh []) =
    Ok None
       (mkClient (Some (mkHost Ref.self))
          (Some (mkP2P Ref.self []
                   [mkListener (L := Ref.codec) "/x/ssh" (Some [("p2p", "QmSelf")]) None] []))
          [])
       [].
Proof.
  exact (Listen_unparseable_target (L := Ref.codec) Ref.up (Ref.fresh [])
           (mkP2P Ref.self [] [] []) "/x/ssh" "not-a-multiaddr" _ eq_refl eq_refl eq_refl).
Defined.

(** * Further properties of the client *)

(** ** List and ListListen *)

Section Listing.

Context {L : Codec}.









(** What a call of [Listen] that returns nil did to the client. *)
Lemma Listen_nil (N : Net L) (c c1 : P2pClient L) (proto targetOpt : string)
    (log : list (Event L)) :
  Listen N proto targetOpt c = Ok None c1 log ->
  exists p,
    P2P c = Some p /\ log = [] /\
    c1 = mkClient (Host c)
           (Some (mkP2P (identity p) (ListenersLocal p)
                    (ListenersP2P p
                       ++ [mkListener proto (addrOrNil ("/p2p/" +++ identity p))
                             (addrOrNil targetOpt)])
                    (Streams p)))
           (Peers c).
Proof.
  unfold Listen, P2P_ForwardRemote. run.
  destruct (P2P c) as [p|]; simpl; [|discriminate].
  destruct (acceptRemote N proto (addrOrNil targetOpt)); simpl; [discriminate|].
  intros H. inversion H. exists p. repeat split.
Qed.


End Listing.



(** ** filterListener *)

Section Filtering.

Context {L : Codec}.


End Filtering.

(** ** What Forward changes *)

Section ForwardEffect.

Context {L : Codec} (N : Net L).




End ForwardEffect.

(** ** What Close and Destroy account for *)

Section Accounting.

Context {L : Codec}.

Lemma Listeners_scan_partition (f : Listener L -> option bool)
    (ls kept closed : list (Listener L)) :
  Listeners_scan f ls = Some (kept, closed) ->
  length kept + length closed = length ls
  /\ (forall l, In l kept -> In l ls)
  /\ (forall l, In l closed -> In l ls).
Proof.
  revert kept closed. induction ls as [|x rest IH]; intros kept closed; simpl.
  - intros H. inversion H. repeat split; auto.
  - destruct (f x) as [b|]; [|discriminate].
    destruct (Listeners_scan f rest) as [[k cl]|]; [|discriminate].
    destruct (IH k cl eq_refl) as [Hlen [Hk Hc]].
    destruct b; intros H; inversion H; subst; simpl; repeat split; try lia.
    + intros l Hl. right. now apply Hk.
    + intros l [<-|Hl]; [now left | right; now apply Hc].
    + intros l [<-|Hl]; [now left | right; now apply Hk].
    + intros l Hl. right. now apply Hc.
Qed.

Lemma Listeners_scan_total (f : Listener L -> option bool) (ls : list (Listener L)) :
  (forall l, In l ls -> f l <> None) ->
  exists kept closed, Listeners_scan f ls = Some (kept, closed).
Proof.
  induction ls as [|x rest IH]; intros Hall; simpl.
  - eexists. eexists. reflexivity.
  - destruct (f x) as [b|] eqn:Hb; [|exfalso; apply (Hall x); [now left | exact Hb]].
    destruct IH as [k [cl Hs]]; [intros l Hl; apply Hall; now right|].
    rewrite Hs. destruct b; eexists; eexists; reflexivity.
Qed.

Lemma Listeners_scan_snoc (f : Listener L -> option bool)
    (ls kept closed : list (Listener L)) (l : Listener L) :
  Listeners_scan f ls = Some (kept, closed) ->
  f l = Some true ->
  Listeners_scan f (ls ++ [l]) = Some (kept, closed ++ [l]).
Proof.
  revert kept closed. induction ls as [|x rest IH]; intros kept closed; simpl.
  - intros H Hl. inversion H. now rewrite Hl.
  - destruct (f x) as [b|]; [|discriminate].
    destruct (Listeners_scan f rest) as [[k cl]|]; [|discriminate].
    intros H Hl. rewrite (IH k cl eq_refl Hl).
    destruct b; inversion H; reflexivity.
Qed.

Lemma isListenerClose_map (ls : list (Listener L)) :
  filter isListenerClose (map EvListenerClose ls) = map EvListenerClose ls.
Proof. induction ls as [|l rest IH]; simpl; [reflexivity | now rewrite IH]. Qed.

Lemma isListenerClose_resets (ss : list stream) :
  filter (isListenerClose (L := L)) (map EvStreamReset ss) = [].
Proof. induction ss as [|x rest IH]; simpl; [reflexivity | exact IH]. Qed.

(** What [Close] does once the target has parsed and both scans return. *)
Lemma Close_scans (c : P2pClient L) (p : ipfsp2p L) (target : string) (a : multiaddr L)
    (kl cl kr cr : list (Listener L)) :
  NewMultiaddr L target = inr a ->
  P2P c = Some p ->
  Listeners_scan (sameTarget a) (ListenersLocal p) = Some (kl, cl) ->
  Listeners_scan (sameTarget a) (ListenersP2P p) = Some (kr, cr) ->
  Close target c =
  Ok (length cl + length cr, None)
     (mkClient (Host c) (Some (mkP2P (identity p) kl kr (Streams p))) (Peers c))
     (map EvListenerClose cl ++ map EvListenerClose cr).
Proof.
  intros Ha Hp Hl Hr. unfold Close. rewrite Ha. unfold Listeners_Close. run.
  rewrite Hp. simpl. rewrite Hl. simpl. rewrite Hr. simpl.
  rewrite ?app_nil_r. reflexivity.
Qed.

(** X6.  When [Close] returns, it has accounted for every forward: the
    count it returns is the number of forwards that left the two registries
    and the number of forwards it closed, no forward was added, the host and
    the configured peers are untouched; and when it returns an error the
    count is 0 and the client is exactly as before. *)
Theorem Close_accounts (c c' : P2pClient L) (target : string) (n : nat)
    (err : option error) (log : list (Event L)) :
  Close target c = Ok (n, err) c' log ->
  Host c' = Host c
  /\ Peers c' = Peers c
  /\ length (forwards LocalBind c) + length (forwards OverlayBind c) =
     length (forwards LocalBind c') + length (forwards OverlayBind c') + n
  /\ length (filter isListenerClose log) = n
  /\ (forall d l, In l (forwards d c') -> In l (forwards d c))
  /\ (err <> None -> n = 0 /\ c' = c /\ log = []).
Proof.
  unfold Close. destruct (NewMultiaddr L target) as [e|a] eqn:Ha.
  { intros H. inversion H. subst. repeat split; auto. }
  unfold Listeners_Close. run.
  destruct (P2P c) as [p|] eqn:Hp; simpl; [|discriminate].
  destruct (Listeners_scan (sameTarget a) (ListenersLocal p)) as [[kl cl]|] eqn:Hl;
    simpl; [|discriminate].
  destruct (Listeners_scan (sameTarget a) (ListenersP2P p)) as [[kr cr]|] eqn:Hr;
    simpl; [|discriminate].
  intros H. inversion H. subst. clear H.
  destruct (Listeners_scan_partition _ _ _ _ Hl) as [Hll [Hkl _]].
  destruct (Listeners_scan_partition _ _ _ _ Hr) as [Hlr [Hkr _]].
  unfold forwards. rewrite Hp. simpl.
  split; [reflexivity|]. split; [reflexivity|]. split; [lia|]. split.
  - rewrite ?app_nil_r, filter_app, !isListenerClose_map, length_app, !length_map.
    reflexivity.
  - split.
    + intros [|] l; simpl; auto.
    + intros Hn. now contradiction Hn.
Qed.

(** X7.  [Listen] followed by [Close] of the same target text undoes the
    [Listen]: on a client whose forwards all have a target address, if
    [Listen(proto, target)] returns nil for a target that parses to an
    address equal to itself, then [Close(target)] after it ends in the very
    client that [Close(target)] without the [Listen] ends in, and counts one
    more forward. *)
Theorem Listen_then_Close (N : Net L) (c c1 : P2pClient L) (proto target : string)
    (a : multiaddr L) (log1 : list (Event L)) :
  NewMultiaddr L target = inr a ->
  ma_Equal L a a = true ->
  (forall l, In l (forwards LocalBind c ++ forwards OverlayBind c) ->
             TargetAddress l <> None) ->
  Listen N proto target c = Ok None c1 log1 ->
  exists n c2 log2 log2',
    Close target c = Ok (n, None) c2 log2
    /\ Close target c1 = Ok (n + 1, None) c2 log2'.
Proof.
  intros Ha Hrefl Hnn Hlisten.
  destruct (Listen_nil N c c1 proto target log1 Hlisten) as [p [Hp [_ Hc1]]].
  unfold forwards in Hnn. rewrite Hp in Hnn. simpl in Hnn.
  assert (Htot : forall ls, (forall l, In l ls -> TargetAddress l <> None) ->
                 forall l, In l ls -> sameTarget a l <> None).
  { intros ls Hls l Hl. unfold sameTarget. specialize (Hls l Hl).
    destruct (TargetAddress l); [discriminate | contradiction]. }
  destruct (Listeners_scan_total (sameTarget a) (ListenersLocal p)) as [kl [cl Hl]].
  { apply Htot. intros l Hin. apply Hnn. apply in_or_app. now left. }
  destruct (Listeners_scan_total (sameTarget a) (ListenersP2P p)) as [kr [cr Hr]].
  { apply Htot. intros l Hin. apply Hnn. apply in_or_app. now right. }
  assert (Hta : addrOrNil target = Some a) by (unfold addrOrNil; now rewrite Ha).
  rewrite Hta in Hc1.
  set (new := mkListener proto (addrOrNil ("/p2p/" +++ identity p)) (Some a)) in *.
  assert (Hnew : sameTarget a new = Some true) by (unfold sameTarget; simpl; now rewrite Hrefl).
  pose proof (Listeners_scan_snoc _ _ _ _ new Hr Hnew) as Hr1.
  exists (length cl + length cr). eexists. eexists. eexists. split.
  - exact (Close_scans c p target a kl cl kr cr Ha Hp Hl Hr).
  - rewrite (Close_scans c1
               (mkP2P (identity p) (ListenersLocal p) (ListenersP2P p ++ [new]) (Streams p))
               target a kl cl kr (cr ++ [new]) Ha); try assumption.
    + rewrite Hc1. simpl. rewrite length_app. simpl.
      replace (length cl + (length cr + 1)) with (length cl + length cr + 1) by lia.
      reflexivity.
    + rewrite Hc1. reflexivity.
Qed.

(** X8.  On a client whose [P2P] reference is not nil, [Destroy] closes
    every forward exactly once, the overlay-bind ones before the local-bind
    ones, and leaves no forward behind, whether it returns or panics.  With
    a live host it returns what closing the host returned, and the
    references are cleared even when that is an error; with a nil host it
    panics after the registries were emptied, and the [P2P] reference stays
    in place. *)
Theorem Destroy_closes_every_forward (N : Net L) (c : P2pClient L) (p : ipfsp2p L) :
  P2P c = Some p ->
  forwards LocalBind (clientOf (Destroy N c)) = []
  /\ forwards OverlayBind (clientOf (Destroy N c)) = []
  /\ filter isListenerClose (logOf (Destroy N c)) =
     map EvListenerClose (ListenersP2P p ++ ListenersLocal p)
  /\ (forall h, Host c = Some h ->
        exists log, Destroy N c = Ok (Host_Close N) (mkClient None None (Peers c)) log)
  /\ (Host c = None ->
        exists log,
          Destroy N c =
          Panic (mkClient None (Some (mkP2P (identity p) [] [] [])) (Peers c)) log).
Proof.
  intros Hp. destruct (Host c) as [h|] eqn:Hh.
  - rewrite (Destroy_live N c h p Hh Hp). simpl.
    split; [reflexivity|]. split; [reflexivity|]. split.
    + rewrite !filter_app, isListenerClose_resets, !isListenerClose_map, map_app.
      simpl. now rewrite app_nil_r.
    + split; [|discriminate]. intros h' _. eexists. reflexivity.
  - assert (Hd : Destroy N c =
                 Panic (mkClient None (Some (mkP2P (identity p) [] [] [])) (Peers c))
                   (map EvStreamReset (Streams p)
                      ++ map EvListenerClose (ListenersP2P p)
                      ++ map EvListenerClose (ListenersLocal p))).
    { unfold Destroy, closeStreams, Listeners_Close. run.
      rewrite Hp. simpl. rewrite Listeners_scan_all. simpl.
      rewrite Listeners_scan_all. simpl. rewrite ?Hh. simpl.
      rewrite ?app_nil_r. reflexivity. }
    rewrite Hd. simpl.
    split; [reflexivity|]. split; [reflexivity|]. split.
    + rewrite !filter_app, isListenerClose_resets, !isListenerClose_map, map_app.
      reflexivity.
    + split; [discriminate|]. intros _. eexists. reflexivity.
Qed.

End Accounting.

Lemma Close_accounts_witness :
  length (forwards LocalBind Ref.both) + length (forwards OverlayBind Ref.both) =
  length (forwards LocalBind (clientOf (Close "/p2p/QmTarget" Ref.both)))
    + length (forwards OverlayBind (clientOf (Close "/p2p/QmTarget" Ref.both))) + 1.
Proof.
  exact (proj1 (proj2 (proj2 (Close_accounts (L := Ref.codec) Ref.both
           (clientOf (Close "/p2p/QmTarget" Ref.both)) "/p2p/QmTarget" 1 None
           (logOf (Close "/p2p/QmTarget" Ref.both)) eq_refl)))).
Defined.

Lemma Listen_then_Close_witness :
  exists n c2 log2 log2',
    Close "/ip4/127.0.0.1/tcp/80" Ref.once = Ok (n, None) c2 log2
    /\ Close "/ip4/127.0.0.1/tcp/80" Ref.both = Ok (n + 1, None) c2 log2'.
Proof.
  refine (Listen_then_Close (L := Ref.codec) Ref.up Ref.once Ref.both "/x/ssh"
            "/ip4/127.0.0.1/tcp/80" [("ip4", "127.0.0.1"); ("tcp", "80")] []
            eq_refl eq_refl _ eq_refl).
  intros l [<-|[]]. discriminate.
Defined.

Lemma Destroy_closes_every_forward_witness :
  forwards LocalBind (clientOf (Destroy Ref.up Ref.both)) = []
  /\ filter isListenerClose (logOf (Destroy Ref.up Ref.both)) =
     map EvListenerClose (forwards OverlayBind Ref.both ++ forwards LocalBind Ref.both).
Proof.
  destruct (Destroy_closes_every_forward (L := Ref.codec) Ref.up Ref.both
              (mkP2P Ref.self (forwards LocalBind Ref.both) (forwards OverlayBind Ref.both) [])
              eq_refl) as [Hl [_ [Hlog _]]].
  split; [exact Hl | exact Hlog].
Defined.

(** ** The pattern that reads a listen address *)

Section Pattern.

Lemma append_cons (c : ascii) (s t : string) :
  String c s +++ t = String c (s +++ t).
Proof. reflexivity. Qed.

Lemma append_empty_r (s : string) : s +++ "" = s.
Proof.
  induction s as [|c r IH]; [reflexivity|]. rewrite append_cons. now rewrite IH.
Qed.

Lemma digitRun_stops (rest : string) :
  fst (digitRun rest) = "" -> digitRun rest = ("", rest).
Proof.
  destruct rest as [|c r]; [reflexivity|]. simpl.
  destruct (isDigit c); [|reflexivity].
  destruct (digitRun r). discriminate.
Qed.

Lemma digitRun_app (ds rest : string) :
  allDigits ds = true ->
  fst (digitRun rest) = "" ->
  digitRun (ds +++ rest) = (ds, rest).
Proof.
  intros Hd Hr. induction ds as [|c d IH].
  - now apply digitRun_stops.
  - simpl in Hd. apply andb_prop in Hd. destruct Hd as [Hc Hd].
    rewrite append_cons. simpl. rewrite Hc, (IH Hd). reflexivity.
Qed.

Lemma digits1_app (ds rest : string) :
  allDigits ds = true ->
  ds <> "" ->
  fst (digitRun rest) = "" ->
  digits1 (ds +++ rest) = Some (ds, rest).
Proof.
  intros Hd Hne Hr. unfold digits1. rewrite (digitRun_app ds rest Hd Hr).
  destruct ds; [contradiction | reflexivity].
Qed.

Lemma literal_app (p s : string) : literal p (p +++ s) = Some s.
Proof.
  induction p as [|c r IH]; [reflexivity|].
  rewrite append_cons. simpl. now rewrite Ascii.eqb_refl.
Qed.

Lemma dot_stops (s : string) : fst (digitRun ("." +++ s)) = "".
Proof. reflexivity. Qed.

Lemma tcp_stops (s : string) : fst (digitRun ("/tcp/" +++ s)) = "".
Proof. reflexivity. Qed.

(** The pattern at the head of a text that is an [ip4] address of four
    numbers and a [tcp] port, followed by something that is no digit. *)
Lemma matchHere_listen (a b c d p rest : string) :
  allDigits a = true -> a <> "" ->
  allDigits b = true -> b <> "" ->
  allDigits c = true -> c <> "" ->
  allDigits d = true -> d <> "" ->
  allDigits p = true -> p <> "" ->
  fst (digitRun rest) = "" ->
  matchHere ("/ip4/" +++ a +++ "." +++ b +++ "." +++ c +++ "." +++ d
               +++ "/tcp/" +++ p +++ rest) =
  Some (a +++ "." +++ b +++ "." +++ c +++ "." +++ d, p).
Proof.
  intros Ha Ha' Hb Hb' Hc Hc' Hd Hd' Hp Hp' Hrest.
  unfold matchHere.
  rewrite literal_app.
  rewrite (digits1_app a _ Ha Ha' (dot_stops _)).
  rewrite (literal_app "." _).
  rewrite (digits1_app b _ Hb Hb' (dot_stops _)).
  rewrite (literal_app "." _).
  rewrite (digits1_app c _ Hc Hc' (dot_stops _)).
  rewrite (literal_app "." _).
  rewrite (digits1_app d _ Hd Hd' (tcp_stops _)).
  rewrite (literal_app "/tcp/" _).
  rewrite (digits1_app p _ Hp Hp' Hrest).
  reflexivity.
Qed.

Lemma FindStringSubmatch_unfold (s : string) :
  FindStringSubmatch s =
  match matchHere s with
  | Some (ip, port) => ["/ip4/" +++ ip +++ "/tcp/" +++ port; ip; port]
  | None =>
      match s with
      | EmptyString => []
      | String _ r => FindStringSubmatch r
      end
  end.
Proof. destruct s; reflexivity. Qed.

Lemma FindStringSubmatch_listen (a b c d p : string) :
  allDigits a = true -> a <> "" ->
  allDigits b = true -> b <> "" ->
  allDigits c = true -> c <> "" ->
  allDigits d = true -> d <> "" ->
  allDigits p = true -> p <> "" ->
  FindStringSubmatch ("/ip4/" +++ a +++ "." +++ b +++ "." +++ c +++ "." +++ d
                        +++ "/tcp/" +++ p) =
  ["/ip4/" +++ (a +++ "." +++ b +++ "." +++ c +++ "." +++ d) +++ "/tcp/" +++ p;
   a +++ "." +++ b +++ "." +++ c +++ "." +++ d; p].
Proof.
  intros Ha Ha' Hb Hb' Hc Hc' Hd Hd' Hp Hp'.
  rewrite FindStringSubmatch_unfold.
  rewrite <- (append_empty_r p) at 1.
  rewrite (matchHere_listen a b c d p "" Ha Ha' Hb Hb' Hc Hc' Hd Hd' Hp Hp' eq_refl).
  reflexivity.
Qed.

Lemma string_of_uint_digits (u : Decimal.uint) :
  allDigits (NilEmpty.string_of_uint u) = true.
Proof. induction u; simpl; auto. Qed.

(** A port that is not negative prints as a non-empty run of digits. *)
Lemma itoa_digits (n : Z) :
  (0 <= n)%Z -> allDigits (itoa n) = true /\ itoa n <> "".
Proof.
  intros Hn. unfold itoa.
  destruct n as [|q|q]; [split; [reflexivity|discriminate] | | lia].
  simpl. unfold NilZero.string_of_uint.
  destruct (Pos.to_uint q) as [|u|u|u|u|u|u|u|u|u|u] eqn:E;
    try (split; [apply (string_of_uint_digits (Decimal.D0 u))
                || apply (string_of_uint_digits (Decimal.D1 u))
                || apply (string_of_uint_digits (Decimal.D2 u))
                || apply (string_of_uint_digits (Decimal.D3 u))
                || apply (string_of_uint_digits (Decimal.D4 u))
                || apply (string_of_uint_digits (Decimal.D5 u))
                || apply (string_of_uint_digits (Decimal.D6 u))
                || apply (string_of_uint_digits (Decimal.D7 u))
                || apply (string_of_uint_digits (Decimal.D8 u))
                || apply (string_of_uint_digits (Decimal.D9 u))
               | discriminate]).
  split; [reflexivity | discriminate].
Qed.

(** X10.  The pattern of [ForwardWithRandomPort] reads back what [Forward]
    writes: for every port that is not negative, the listen text
    [/ip4/127.0.0.1/tcp/<port>] that [Forward] builds matches as a whole,
    with the groups [127.0.0.1] and the decimal text of the port. *)
Theorem FindStringSubmatch_listenOpt (port : Z) :
  (0 <= port)%Z ->
  FindStringSubmatch ("/ip4/127.0.0.1/tcp/" +++ itoa port) =
  ["/ip4/127.0.0.1/tcp/" +++ itoa port; "127.0.0.1"; itoa port].
Proof.
  intros Hp. destruct (itoa_digits port Hp) as [Hd Hne].
  exact (FindStringSubmatch_listen "127" "0" "0" "1" (itoa port)
           eq_refl ltac:(discriminate) eq_refl ltac:(discriminate)
           eq_refl ltac:(discriminate) eq_refl ltac:(discriminate) Hd Hne).
Qed.

End Pattern.

Lemma FindStringSubmatch_listenOpt_witness :
  FindStringSubmatch ("/ip4/127.0.0.1/tcp/" +++ itoa 8000) =
  ["/ip4/127.0.0.1/tcp/8000"; "127.0.0.1"; "8000"].
Proof.
  exact (FindStringSubmatch_listenOpt 8000 ltac:(discriminate)).
Defined.

(** ** ForwardWithRandomPort *)

Section RandomPort.

Context {L : Codec} (N : Net L).




Lemma ForwardWithRandomPort_unfold (c : P2pClient L) (peerId : string)
    (replies : list ListenReply) :
  ListListen c = Ok (replies, None) c [] ->
  ForwardWithRandomPort N peerId c =
  if (3 <=? length (found peerId replies))%nat then
    Ok (nth 1 (found peerId replies) "", nth 2 (found peerId replies) "", None) c []
  else
    match Forward N "/x/ssh" (randomPort N) ("/p2p/" +++ peerId) c with
    | Ok (Some _) c' l => Ok ("", "", None) c' l
    | Ok None c' l => Ok ("127.0.0.1", itoa (randomPort N), None) c' l
    | Panic c' l => Panic c' l
    end.
Proof.
  intros HLL. unfold ForwardWithRandomPort. unfold bind at 1. rewrite HLL.
  cbn [snd fst]. fold (found peerId replies).
  destruct (3 <=? length (found peerId replies))%nat; [reflexivity|].
  unfold bind.
  destruct (Forward N "/x/ssh" (randomPort N) ("/p2p/" +++ peerId) c)
    as [[e|] c' l|c' l]; unfold ret; cbn [app]; rewrite ?app_nil_r; reflexivity.
Qed.



(** [Forward] with a peer identifier that already carries the prefix
    [/p2p/], for a codec that rejects the doubled prefix. *)
Lemma Forward_doubled_prefix (c : P2pClient L) (protoOpt : string) (port : Z)
    (peerId : string) (e : error) :
  NewMultiaddr L ("/p2p/" +++ "/p2p/" +++ peerId) = inl e ->
  (forall b, In b (convertPeers L (Peers c)) ->
     exists e', NewMultiaddr L ("/p2p/" +++ ID b +++ "/p2p-circuit/p2p/"
                                 +++ "/p2p/" +++ peerId) = inl e') ->
  Forward N protoOpt port ("/p2p/" +++ peerId) c =
  match convertPeers L (Peers c) with
  | [] => Ok (Some "not enough bootstrap peers") c []
  | _ :: _ => Ok None c []
  end.
Proof.
  intros H1 H2. unfold Forward.
  change (("/p2p/" +++ peerId =? "")%string) with false. cbv iota.
  unfold bind at 1.
  assert (Hh : CheckForwardHealth N protoOpt ("/p2p/" +++ peerId) c = Ok (Some e) c []).
  { unfold CheckForwardHealth, parseIpfsAddr. rewrite H1. reflexivity. }
  rewrite Hh. unfold recover, bind at 1. unfold Forward_fallback. run.
  destruct (convertPeers L (Peers c)) as [|b0 more] eqn:Hpeers.
  - pose proof (randomSubsetOfPeers_nil N 1) as Hr. unfold addrInfo in Hr.
    rewrite Hr. reflexivity.
  - destruct (randomSubsetOfPeers_one N (b0 :: more) ltac:(discriminate)) as [b [Hb Hr]].
    unfold addrInfo in Hr. rewrite Hr. destruct (H2 b Hb) as [e' He'].
    unfold ConnectCircuit, StringCast. rewrite He'. reflexivity.
Qed.

(** X12.  For a peer that has no listed forward yet,
    [ForwardWithRandomPort] hands [/p2p/<peerId>], not [peerId], to [Forward]
    as the peer identifier, so the addresses [Forward] builds carry the
    prefix twice.  With a codec that rejects such texts no forward is ever
    registered: without relay the result is two empty texts, and with a
    relay configured the result is [127.0.0.1] and the random port although
    nothing listens on it ([Forward] recovered from the panic of the circuit
    address and returned nil).  The client is unchanged either way. *)
Theorem ForwardWithRandomPort_doubles_prefix (c : P2pClient L) (peerId : string)
    (replies : list ListenReply) (e : error) :
  NewMultiaddr L ("/p2p/" +++ "/p2p/" +++ peerId) = inl e ->
  (forall b, In b (convertPeers L (Peers c)) ->
     exists e', NewMultiaddr L ("/p2p/" +++ ID b +++ "/p2p-circuit/p2p/"
                                 +++ "/p2p/" +++ peerId) = inl e') ->
  ListListen c = Ok (replies, None) c [] ->
  find (fun item => (reply_TargetAddress item =? "/p2p/" +++ peerId)%string) replies
    = None ->
  ForwardWithRandomPort N peerId c =
  Ok (match convertPeers L (Peers c) with
      | [] => ("", "", None)
      | _ :: _ => ("127.0.0.1", itoa (randomPort N), None)
      end) c [].
Proof.
  intros H1 H2 HLL Hfind.
  rewrite (ForwardWithRandomPort_unfold c peerId replies HLL).
  unfold found. rewrite Hfind. cbn [length Nat.leb].
  rewrite (Forward_doubled_prefix c "/x/ssh" (randomPort N) peerId e H1 H2).
  destruct (convertPeers L (Peers c)); reflexivity.
Qed.

End RandomPort.



Lemma ForwardWithRandomPort_doubles_prefix_witness :
  ForwardWithRandomPort Ref.up "QmTarget" (Ref.fresh []) =
    Ok ("", "", None) (Ref.fresh []) []
  /\ ForwardWithRandomPort Ref.up "QmTarget" (Ref.fresh [Ref.relay]) =
       Ok ("127.0.0.1", "30000", None) (Ref.fresh [Ref.relay]) [].
Proof.
  split.
  - refine (ForwardWithRandomPort_doubles_prefix (L := Ref.codec) Ref.up (Ref.fresh [])
              "QmTarget" [] "failed to parse multiaddr: /p2p//p2p/QmTarget"
              eq_refl _ eq_refl eq_refl).
    intros b [].
  - refine (ForwardWithRandomPort_doubles_prefix (L := Ref.codec) Ref.up
              (Ref.fresh [Ref.relay])
              "QmTarget" [] "failed to parse multiaddr: /p2p//p2p/QmTarget"
              eq_refl _ eq_refl eq_refl).
    intros b [<-|[]]. eexists. reflexivity.
Defined.

(** ** The errors of parseIpfsAddr *)

Section ResolverErrors.

Context {L : Codec} (N : Net L).

(** X13.  Every error of [parseIpfsAddr] is one of four: the error of
    [ma.NewMultiaddr], returned as it is and without a call to the resolver;
    or, after exactly one call to the resolver, the resolver's own error,
    the error of an empty resolution, or an ambiguity error that names two
    distinct identities carried by the resolved addresses. *)
Theorem parseIpfsAddr_errors (addr : string) (err : error) :
  fst (parseIpfsAddr N addr) = inl err ->
  (NewMultiaddr L addr = inl err /\ snd (parseIpfsAddr N addr) = [])
  \/ exists m,
       NewMultiaddr L addr = inr m
       /\ snd (parseIpfsAddr N addr) = [EvResolve resolveTimeout m]
       /\ (madns_Resolve N m = inl err
           \/ (madns_Resolve N m = inr []
               /\ err = "fail to resolve the multiaddr:" +++ ma_String L m)
           \/ exists addrs x y,
                madns_Resolve N m = inr addrs
                /\ In x (identities addrs) /\ In y (identities addrs) /\ x <> y
                /\ err = ambiguous m x y).
Proof.
  unfold parseIpfsAddr.
  destruct (NewMultiaddr L addr) as [e|m].
  { cbn [fst snd]. intros H. inversion H. now left. }
  destruct (AddrInfoFromP2pAddr L m) as [e|pi]; [|discriminate].
  intros H0. right. exists m. revert H0.
  destruct (madns_Resolve N m) as [e'|addrs].
  { cbn [fst snd]. intros H. split; [reflexivity|]. split; [reflexivity|].
    left. congruence. }
  destruct addrs as [|a rest]; cbn [length Nat.eqb fst snd].
  { intros H. split; [reflexivity|]. split; [reflexivity|].
    right. left. split; [reflexivity | congruence]. }
  intros H. split; [reflexivity|]. split; [reflexivity|]. right. right.
  rewrite mergeResolved_unknown in H.
  destruct (identities (a :: rest)) as [|x others] eqn:Hids; [discriminate|].
  destruct (firstOther x others) as [y|] eqn:Hf; [|discriminate].
  apply firstOther_some in Hf. destruct Hf as [Hy Hyx].
  exists (a :: rest), x, y. rewrite Hids.
  repeat split; simpl; auto. congruence.
Qed.

End ResolverErrors.

Lemma parseIpfsAddr_errors_witness :
  exists x y,
    x <> y
    /\ fst (parseIpfsAddr (Ref.net true true Ref.dns) "/dnsaddr/two.example") =
       inl (ambiguous (L := Ref.codec) [("dnsaddr", "two.example")] x y).
Proof.
  destruct (parseIpfsAddr_errors (L := Ref.codec) (Ref.net true true Ref.dns)
              "/dnsaddr/two.example"
              "ambiguous multiaddr /dnsaddr/two.example could refer to QmTarget or QmOther"
              eq_refl) as [[H _]|[m [Hm [_ [H|[[H _]|[addrs [x [y [_ [_ [_ [Hxy He]]]]]]]]]]]]].
  - discriminate.
  - exfalso. inversion Hm. subst m. discriminate.
  - exfalso. inversion Hm. subst m. discriminate.
  - inversion Hm. subst m. exists x, y. split; [exact Hxy|].
    rewrite <- He. reflexivity.
Defined.
